(** * c6: the sparse Connect6 board of [c6.ts]

    A shallow embedding of [src/c6.ts] and the properties of its
    coordinate codec ([Point]), its bit-packed blocks ([Chunk]), its
    sparse grid ([RawBoard]) and its history-tracked board ([Board]).

    JavaScript numbers that the program only ever uses as integers are
    modelled as [Z]; the conversions to 32-bit integers that the bitwise
    operators perform are written out ([to_int32], [to_uint32]). *)

From Stdlib Require Import ZArith Lia Bool List.
From stdpp Require Import base option list gmap.

Local Open Scope Z_scope.

(** ** JavaScript 32-bit integer operators *)

Module JS.

(** [ToUint32] and [ToInt32] of ECMA-262, on integer-valued numbers. *)
Definition to_uint32 (v : Z) : Z := v mod 2 ^ 32.

Definition to_int32 (v : Z) : Z :=
  let u := v mod 2 ^ 32 in
  if u <? 2 ^ 31 then u else u - 2 ^ 32.

(** The shift count of [<<], [>>] and [>>>] is taken modulo 32. *)
Definition shift_count (n : Z) : Z := to_uint32 n mod 32.

(** [a << n] *)
Definition shl (a n : Z) : Z :=
  to_int32 (Z.shiftl (to_int32 a) (shift_count n)).

(** [a >> n] *)
Definition sar (a n : Z) : Z := Z.shiftr (to_int32 a) (shift_count n).

(** [a >>> n] *)
Definition shr (a n : Z) : Z := Z.shiftr (to_uint32 a) (shift_count n).

(** [a & b], [a | b], [a ^ b], [~a] *)
Definition and (a b : Z) : Z := Z.land (to_int32 a) (to_int32 b).
Definition or (a b : Z) : Z := Z.lor (to_int32 a) (to_int32 b).
Definition xor (a b : Z) : Z := Z.lxor (to_int32 a) (to_int32 b).
Definition not (a : Z) : Z := Z.lnot (to_int32 a).

End JS.

(** ** The coordinate codec *)

Definition extract_lo_bits (i bits : Z) : Z * Z :=
  (JS.shr i bits, JS.and i (JS.shl 1 bits - 1)).

Definition zigzag_encode (x : Z) : Z :=
  JS.shr (JS.xor (JS.shl x 1) (JS.sar x 31)) 0.

Definition zigzag_decode (x : Z) : Z :=
  JS.sar (JS.xor (JS.shr x 1) (- JS.and x 1)) 0.

Definition scatter (x : Z) : Z :=
  let x := JS.and (JS.or x (JS.shl x 8)) 0x00ff00ff in
  let x := JS.and (JS.or x (JS.shl x 4)) 0x0f0f0f0f in
  let x := JS.and (JS.or x (JS.shl x 2)) 0x33333333 in
  JS.and (JS.or x (JS.shl x 1)) 0x55555555.

Definition interleave (x y : Z) : Z :=
  JS.or (scatter x) (JS.shl (scatter y) 1).

Definition gather (x : Z) : Z :=
  let x := JS.and x 0x55555555 in
  let x := JS.and (JS.or x (JS.shr x 1)) 0x33333333 in
  let x := JS.and (JS.or x (JS.shr x 2)) 0x0f0f0f0f in
  let x := JS.and (JS.or x (JS.shr x 4)) 0x00ff00ff in
  JS.and (JS.or x (JS.shr x 8)) 0x0000ffff.

Definition deinterleave (x : Z) : Z * Z :=
  (gather x, gather (JS.shr x 1)).

Definition CHUNK_SIZE_BITS : Z := 4.
Definition CHUNK_SIZE : Z := JS.shl 1 CHUNK_SIZE_BITS.
Definition WORDS_PER_CHUNK : Z := CHUNK_SIZE * CHUNK_SIZE * 2 / 32.

Definition SLOT_INDEX_BITS : Z := 4.
Definition WORD_INDEX_BITS : Z := CHUNK_SIZE_BITS * 2 - SLOT_INDEX_BITS.

Module Point.

Record t : Type := mk { x : Z; y : Z }.

Definition index (p : t) : Z :=
  let x := zigzag_encode (x p) in
  let y := zigzag_encode (y p) in
  interleave x y.

Definition from_index (i : Z) : t :=
  let '(x, y) := deinterleave i in
  mk (zigzag_decode x) (zigzag_decode y).

Definition indexes (p : t) : Z * Z * Z :=
  let i := index p in
  let '(i, slot_i) := extract_lo_bits i SLOT_INDEX_BITS in
  let '(i, word_i) := extract_lo_bits i WORD_INDEX_BITS in
  (i, word_i, slot_i).

End Point.

(** ** Stones *)

Inductive Stone : Type := Black | White.

(** The numeric value of an enum member ([Black = 0], [White = 1]). *)
Definition Stone_to_Z (s : Stone) : Z :=
  match s with Black => 0 | White => 1 end.

Global Instance Stone_eq_dec : EqDecision Stone.
Proof. solve_decision. Defined.

(** ** Chunks: sixteen 32-bit words of sixteen 2-bit slots *)

Module Chunk.

(** The [Uint32Array] [words]. *)
Abbreviation t := (list Z).

Definition new : t := replicate (Z.to_nat WORDS_PER_CHUNK) 0.

(** [this.words[i]].  Outside the array the read gives [undefined],
    which every use below passes to a bitwise operator, where it
    counts as 0. *)
Definition word_at (c : t) (i : Z) : Z :=
  if i <? 0 then 0 else default 0 (c !! Z.to_nat i).

(** [this.words[i] = v].  The store converts [v] to an unsigned 32-bit
    integer; outside the array it does nothing. *)
Definition store (c : t) (i v : Z) : t :=
  if i <? 0 then c else <[Z.to_nat i := JS.to_uint32 v]> c.

Definition get (c : t) (word_i slot_i : Z) : option Stone :=
  let word := word_at c word_i in
  match JS.and (JS.shr word (slot_i * 2)) 3 with
  | 0 => None
  | 1 => Some Black
  | _ => Some White
  end.

Definition set (c : t) (word_i slot_i : Z) (stone : Stone) : t * bool :=
  let word := word_at c word_i in
  if negb (JS.and (JS.shr word (slot_i * 2)) 3 =? 0) then (c, false)
  else
    (store c word_i (JS.or word (JS.shl 1 (slot_i * 2 + Stone_to_Z stone))),
     true).

Definition unset (c : t) (word_i slot_i : Z) : t * option Stone :=
  let word := word_at c word_i in
  let c' := store c word_i (JS.and word (JS.not (JS.shl 3 (slot_i * 2)))) in
  (c',
   match JS.and (JS.shr word (slot_i * 2)) 3 with
   | 0 => None
   | 1 => Some Black
   | _ => Some White
   end).

End Chunk.

(** ** The sparse grid *)

Module RawBoard.

(** The [Map] from chunk index to chunk.  A chunk object is referenced
    from this map only, so a method that mutates a chunk in place is
    modelled by writing the updated chunk back under its key. *)
Abbreviation t := (gmap Z Chunk.t).

Definition new : t := ∅.

Definition chunk (b : t) (chunk_i : Z) : option Chunk.t := b !! chunk_i.

Definition chunk_or_default (b : t) (chunk_i : Z) : t * Chunk.t :=
  match b !! chunk_i with
  | Some chunk => (b, chunk)
  | None => (<[chunk_i := Chunk.new]> b, Chunk.new)
  end.

Definition get (b : t) (point : Point.t) : option Stone :=
  let '(chunk_i, word_i, slot_i) := Point.indexes point in
  match chunk b chunk_i with
  | None => None
  | Some chunk => Chunk.get chunk word_i slot_i
  end.

Definition set (b : t) (point : Point.t) (stone : Stone) : t * bool :=
  let '(chunk_i, word_i, slot_i) := Point.indexes point in
  let '(b, chunk) := chunk_or_default b chunk_i in
  let '(chunk, ok) := Chunk.set chunk word_i slot_i stone in
  (<[chunk_i := chunk]> b, ok).

Definition unset (b : t) (point : Point.t) : t * option Stone :=
  let '(chunk_i, word_i, slot_i) := Point.indexes point in
  match chunk b chunk_i with
  | None => (b, None)
  | Some chunk =>
      let '(chunk, old) := Chunk.unset chunk word_i slot_i in
      (<[chunk_i := chunk]> b, old)
  end.

End RawBoard.

(** ** Outcomes of methods that may throw *)

Inductive js_error : Type := TypeError.

(** A call either returns a value or throws; in both cases it leaves a
    state behind. *)
Inductive outcome (S A : Type) : Type :=
| Ok (a : A) (s : S)
| Throw (e : js_error) (s : S).
Arguments Ok {S A} a s.
Arguments Throw {S A} e s.

Definition bind {S A B} (m : outcome S A) (k : A -> S -> outcome S B)
  : outcome S B :=
  match m with
  | Ok a s => k a s
  | Throw e s => Throw e s
  end.

(** ** The history-tracked board *)

Module Board.

Abbreviation entry := (Point.t * Stone)%type.

Record t : Type := mk {
  board : RawBoard.t;
  record : list entry;
  _index : Z;
}.

Definition new : t := mk RawBoard.new [] 0.

(** [this.record[i]]: [None] stands for [undefined]. *)
Definition entry_at (record : list entry) (i : Z) : option entry :=
  if i <? 0 then None else record !! Z.to_nat i.

Definition length (record : list entry) : Z := Z.of_nat (List.length record).

(** The position that [splice] and [slice] make of a relative index. *)
Definition clamp_index (record : list entry) (i : Z) : Z :=
  if i <? 0 then Z.max (length record + i) 0 else Z.min i (length record).

(** What [record.splice(start)] leaves in the array. *)
Definition splice (record : list entry) (start : Z) : list entry :=
  take (Z.to_nat (clamp_index record start)) record.

(** [record.slice(0, stop)] *)
Definition slice0 (record : list entry) (stop : Z) : list entry :=
  take (Z.to_nat (clamp_index record stop)) record.

Definition total_count (b : t) : Z := length (record b).

Definition index (b : t) : Z := _index b.

Definition is_empty (b : t) : bool := _index b =? 0.

Definition get (b : t) (point : Point.t) : option Stone :=
  RawBoard.get (board b) point.

Definition past_record (b : t) : list entry :=
  slice0 (record b) (_index b).

Definition set (b : t) (point : Point.t) (stone : Stone) : bool * t :=
  let '(g, ok) := RawBoard.set (board b) point stone in
  if negb ok then (false, mk g (record b) (_index b))
  else
    let record := splice (record b) (_index b) in
    let record := record ++ [(point, stone)] in
    (true, mk g record (_index b + 1)).

Definition unset (b : t) : outcome t (option entry) :=
  if _index b =? 0 then Ok None b
  else
    let b := mk (board b) (record b) (_index b - 1) in
    match entry_at (record b) (_index b) with
    | None => Throw TypeError b
    | Some last =>
        let '(g, _) := RawBoard.unset (board b) (fst last) in
        Ok (Some last) (mk g (record b) (_index b))
    end.

Definition reset (b : t) : outcome t (option entry) :=
  if length (record b) <=? _index b then Ok None b
  else
    let next := entry_at (record b) (_index b) in
    let b := mk (board b) (record b) (_index b + 1) in
    match next with
    | None => Throw TypeError b
    | Some next =>
        let '(g, _) := RawBoard.set (board b) (fst next) (snd next) in
        Ok (Some next) (mk g (record b) (_index b))
    end.

(** The two loops of [jump].  [for (i = from; i < index; i++)] runs
    its body [index - from] times and
    [for (i = from; i >= index; i--)] runs it [from - index + 1] times,
    unless the body throws; [n] counts the iterations that remain. *)
Fixpoint jump_forward (n : nat) (i : Z) (record : list entry)
    (g : RawBoard.t) : outcome RawBoard.t unit :=
  match n with
  | O => Ok tt g
  | S n =>
      match entry_at record i with
      | None => Throw TypeError g
      | Some next =>
          let '(g, _) := RawBoard.set g (fst next) (snd next) in
          jump_forward n (i + 1) record g
      end
  end.

Fixpoint jump_backward (n : nat) (i : Z) (record : list entry)
    (g : RawBoard.t) : outcome RawBoard.t unit :=
  match n with
  | O => Ok tt g
  | S n =>
      match entry_at record i with
      | None => Throw TypeError g
      | Some last =>
          let '(g, _) := RawBoard.unset g (fst last) in
          jump_backward n (i - 1) record g
      end
  end.

Definition jump (index : Z) (b : t) : outcome t unit :=
  if length (record b) <? index then Ok tt b
  else
    let walked :=
      if _index b <? index
      then jump_forward (Z.to_nat (index - _index b)) (_index b)
             (record b) (board b)
      else jump_backward (Z.to_nat (_index b - 1 - index + 1)) (_index b - 1)
             (record b) (board b) in
    match walked with
    | Ok _ g => Ok tt (mk g (record b) index)
    | Throw e g => Throw e (mk g (record b) (_index b))
    end.

(** The stone of the result is given by its enum value, as
    [last ^ 1] computes it. *)
Definition infer_turn (b : t) : outcome t (Z * bool) :=
  if _index b =? 0 then Ok (Stone_to_Z Black, true) b
  else
    match entry_at (record b) (_index b - 1) with
    | None => Throw TypeError b
    | Some e1 =>
        let last := Stone_to_Z (snd e1) in
        if _index b =? 1 then Ok (Stone_to_Z White, last =? Stone_to_Z White) b
        else
          match entry_at (record b) (_index b - 2) with
          | None => Throw TypeError b
          | Some e2 =>
              let last_prev := Stone_to_Z (snd e2) in
              if last =? last_prev then Ok (JS.xor last 1, false) b
              else Ok (last, true) b
          end
    end.

Definition from_record (record : list entry) : t :=
  fold_left
    (fun board move =>
       snd (set board (Point.mk (Point.x (fst move)) (Point.y (fst move)))
              (snd move)))
    record new.

End Board.

(** ** Auxiliary definitions for the codec proofs *)

(** Exhaustive check of a predicate over all [k]-bit extensions of [acc]. *)
Fixpoint forall_bits (k : nat) (f : Z -> bool) (acc : Z) : bool :=
  match k with
  | O => f acc
  | S k' => forall_bits k' f (2 * acc) && forall_bits k' f (2 * acc + 1)
  end.

(** [gather] after its first masking step. *)
Definition gather_tail (x : Z) : Z :=
  let x := JS.and (JS.or x (JS.shr x 1)) 0x33333333 in
  let x := JS.and (JS.or x (JS.shr x 2)) 0x0f0f0f0f in
  let x := JS.and (JS.or x (JS.shr x 4)) 0x00ff00ff in
  JS.and (JS.or x (JS.shr x 8)) 0x0000ffff.

(** [scatter] ends with a masking step. *)
Definition scatter_head (x : Z) : Z :=
  let x := JS.and (JS.or x (JS.shl x 8)) 0x00ff00ff in
  let x := JS.and (JS.or x (JS.shl x 4)) 0x0f0f0f0f in
  let x := JS.and (JS.or x (JS.shl x 2)) 0x33333333 in
  JS.or x (JS.shl x 1).

Definition hi_clear (x : Z) : Prop :=
  forall n, 32 <= n -> Z.testbit x n = false.

Definition scatter_raw (x : Z) : Z :=
  let x := Z.land (Z.lor x (Z.shiftl x 8)) 0x00ff00ff in
  let x := Z.land (Z.lor x (Z.shiftl x 4)) 0x0f0f0f0f in
  let x := Z.land (Z.lor x (Z.shiftl x 2)) 0x33333333 in
  Z.land (Z.lor x (Z.shiftl x 1)) 0x55555555.

Definition gather_tail_raw (x : Z) : Z :=
  let x := Z.land (Z.lor x (Z.shiftr x 1)) 0x33333333 in
  let x := Z.land (Z.lor x (Z.shiftr x 2)) 0x0f0f0f0f in
  let x := Z.land (Z.lor x (Z.shiftr x 4)) 0x00ff00ff in
  Z.land (Z.lor x (Z.shiftr x 8)) 0x0000ffff.

Definition roundtrip16 (a : Z) : bool := gather_tail_raw (scatter_raw a) =? a.

(** ** Auxiliary definitions for the storage proofs *)

(** The 2-bit field of slot [slot_i] in a word, as the chunk methods
    compute it. *)
Definition slot_field (word slot_i : Z) : Z :=
  JS.and (JS.shr word (slot_i * 2)) 3.

Definition stone_of_field (f : Z) : option Stone :=
  match f with
  | 0 => None
  | 1 => Some Black
  | _ => Some White
  end.

(** What a [Uint32Array] of [WORDS_PER_CHUNK] elements can hold. *)
Definition wf_chunk (c : Chunk.t) : Prop :=
  List.length c = Z.to_nat WORDS_PER_CHUNK /\
  Forall (fun w => 0 <= w < 2 ^ 32) c.

Definition wf_grid (g : RawBoard.t) : Prop :=
  forall i c, g !! i = Some c -> wf_chunk c.

(** The index triples that [Point.indexes] can produce. *)
Definition valid_key (k : Z * Z * Z) : Prop :=
  0 <= snd (fst k) < 16 /\ 0 <= snd k < 16.

(** The content of the grid at an index triple. *)
Definition cell (g : RawBoard.t) (k : Z * Z * Z) : option Stone :=
  match g !! fst (fst k) with
  | None => None
  | Some c => Chunk.get c (snd (fst k)) (snd k)
  end.

(** The supported coordinate range. *)
Definition in_range (p : Point.t) : Prop :=
  -32768 <= Point.x p <= 32767 /\ -32768 <= Point.y p <= 32767.

(** The writing calls on a grid, and a sequence of them. *)
Inductive raw_call : Type :=
| RawSet (point : Point.t) (stone : Stone)
| RawUnset (point : Point.t).

Definition raw_perform (g : RawBoard.t) (c : raw_call) : RawBoard.t :=
  match c with
  | RawSet point stone => fst (RawBoard.set g point stone)
  | RawUnset point => fst (RawBoard.unset g point)
  end.

Definition raw_perform_all (cs : list raw_call) (g : RawBoard.t) : RawBoard.t :=
  fold_left raw_perform cs g.

(** The call [c] does not write a stone into slot [k]. *)
Definition leaves_slot (k : Z * Z * Z) (c : raw_call) : Prop :=
  match c with
  | RawSet point _ => Point.indexes point <> k
  | RawUnset _ => True
  end.

(** The call [c] sets no point outside the supported range. *)
Definition sets_in_range (c : raw_call) : Prop :=
  match c with
  | RawSet point _ => in_range point
  | RawUnset _ => True
  end.

(** The call [c] is not a [set] of the point [p]. *)
Definition never_sets (p : Point.t) (c : raw_call) : Prop :=
  match c with
  | RawSet point _ => point <> p
  | RawUnset _ => True
  end.

(** ** Auxiliary definitions for the history proofs *)

Definition opposite (s : Stone) : Stone :=
  match s with Black => White | White => Black end.

(** [n] calls of a method of [Board], the returned entries dropped. *)
Fixpoint repeat_call {A} (n : nat) (call : Board.t -> outcome Board.t A)
    (b : Board.t) : outcome Board.t unit :=
  match n with
  | O => Ok tt b
  | S n => bind (call b) (fun _ b => repeat_call n call b)
  end.

(** Reaching the cursor value [target] by single [reset] or [unset]
    calls. *)
Definition walk_to (target : Z) (b : Board.t) : outcome Board.t unit :=
  if Board._index b <? target
  then repeat_call (Z.to_nat (target - Board._index b)) Board.reset b
  else repeat_call (Z.to_nat (Board._index b - target)) Board.unset b.

(** The calls a client can make on a board. *)
Inductive call : Type :=
| CallSet (point : Point.t) (stone : Stone)
| CallUnset
| CallReset
| CallJump (index : Z).

Definition perform (c : call) (b : Board.t) : outcome Board.t unit :=
  match c with
  | CallSet point stone => Ok tt (snd (Board.set b point stone))
  | CallUnset => bind (Board.unset b) (fun _ b => Ok tt b)
  | CallReset => bind (Board.reset b) (fun _ b => Ok tt b)
  | CallJump index => Board.jump index b
  end.

(** A sequence of calls, up to the first one that throws. *)
Fixpoint perform_all (cs : list call) (b : Board.t) : outcome Board.t unit :=
  match cs with
  | [] => Ok tt b
  | c :: cs => bind (perform c b) (fun _ b => perform_all cs b)
  end.

(** Writing a list of entries, in order, onto an empty grid. *)
Definition replay (l : list Board.entry) : RawBoard.t :=
  fold_left (fun g e => fst (RawBoard.set g (fst e) (snd e))) l RawBoard.new.

Definition keys (l : list Board.entry) : list (Z * Z * Z) :=
  map (fun e => Point.indexes (fst e)) l.

(** The stone of the first entry of [l] that addresses slot [k]. *)
Fixpoint lookup_key (l : list Board.entry) (k : Z * Z * Z) : option Stone :=
  match l with
  | [] => None
  | e :: l =>
      if decide (Point.indexes (fst e) = k) then Some (snd e)
      else lookup_key l k
  end.

(** The cursor lies within the record. *)
Definition cursor_ok (b : Board.t) : Prop :=
  0 <= Board._index b <= Board.length (Board.record b).

(** The state invariant of a board: the grid holds what a typed array
    can hold, the cursor lies within the record, no two recorded entries
    address the same slot, and the grid holds exactly the entries before
    the cursor. *)
Definition board_inv (b : Board.t) : Prop :=
  wf_grid (Board.board b) /\
  cursor_ok b /\
  NoDup (keys (Board.record b)) /\
  forall k, valid_key k ->
    cell (Board.board b) k
    = lookup_key (take (Z.to_nat (Board._index b)) (Board.record b)) k.

(** The board a call sequence leaves behind. *)
Definition final_board (o : outcome Board.t unit) : Board.t :=
  match o with
  | Ok _ b => b
  | Throw _ b => b
  end.

Definition sample_calls : list call :=
  [CallSet (Point.mk 0 0) Black; CallSet (Point.mk 1 1) White;
   CallSet (Point.mk 1 1) Black; CallUnset; CallJump 0; CallReset;
   CallJump 7; CallSet (Point.mk (-3) 4) White; CallJump 1].

(** ** Auxiliary definitions for the further properties *)

(** Bit [n] of a scattered 16-bit value is bit [n / 2] of the operand at
    the even positions and clear at the odd ones. *)
Definition scatter_bits_ok (a : Z) : bool :=
  let s := scatter_raw a in
  forallb
    (fun n => Bool.eqb (Z.testbit s n) (Z.even n && Z.testbit a (n / 2)))
    (seqZ 0 32).

(** No slot of the grid holds the bit pattern 3. *)
Definition no_pattern3 (g : RawBoard.t) : Prop :=
  forall i c wi si,
    g !! i = Some c -> 0 <= wi < 16 -> 0 <= si < 16 ->
    slot_field (Chunk.word_at c wi) si <> 3.

(** The stone of move number [k] (from 0) in a game of Connect6: Black
    places one stone, then the sides take turns of two stones, White
    first. *)
Definition connect6_stone (k : Z) : Stone :=
  if k =? 0 then Black
  else if (k mod 4 =? 1) || (k mod 4 =? 2) then White
  else Black.

(** Exhaustive check of a predicate over the numbers that extend [acc]
    by [k] base-4 digits 0 or 1, that is, by [k] bits at even positions. *)
Fixpoint forall_even_bits (k : nat) (f : Z -> bool) (acc : Z) : bool :=
  match k with
  | O => f acc
  | S k' =>
      forall_even_bits k' f (4 * acc) && forall_even_bits k' f (4 * acc + 1)
  end.

(** A number below [4^k] whose bits at odd positions are clear. *)
Definition even_only (k : nat) (v : Z) : Prop :=
  0 <= v < 4 ^ Z.of_nat k /\
  forall n, 0 <= n -> Z.odd n = true -> Z.testbit v n = false.

Definition unspread16 (v : Z) : bool := scatter_raw (gather_tail_raw v) =? v.

(** * Properties *)

(** Well-formedness facts that the proofs about grids and boards use
    over and over. *)
Create HintDb c6 discriminated.

(** ** Bit-level facts about the 32-bit conversions *)

Section Bits32.

Lemma to_uint32_range v : 0 <= JS.to_uint32 v < 2 ^ 32.
Proof. unfold JS.to_uint32. apply Z.mod_pos_bound. lia. Qed.

Lemma to_int32_range v : - 2 ^ 31 <= JS.to_int32 v < 2 ^ 31.
Proof.
  unfold JS.to_int32.
  pose proof (Z.mod_pos_bound v (2 ^ 32) ltac:(lia)) as Hb.
  cbv zeta. destruct (Z.ltb_spec (v mod 2 ^ 32) (2 ^ 31)); lia.
Qed.

Lemma to_uint32_small v : 0 <= v < 2 ^ 32 -> JS.to_uint32 v = v.
Proof. intros Hv. unfold JS.to_uint32. by apply Z.mod_small. Qed.

Lemma to_int32_small v : - 2 ^ 31 <= v < 2 ^ 31 -> JS.to_int32 v = v.
Proof.
  intros Hv. unfold JS.to_int32. cbv zeta.
  destruct (Z.ltb_spec (v mod 2 ^ 32) (2 ^ 31)) as [Hlt | Hge].
  - destruct (Z.le_gt_cases 0 v) as [Hp | Hn].
    + apply Z.mod_small. lia.
    + rewrite <- (Z.mod_add v 1 (2 ^ 32)) in Hlt by lia.
      rewrite Z.mod_small in Hlt by lia. lia.
  - destruct (Z.le_gt_cases 0 v) as [Hp | Hn].
    + rewrite Z.mod_small in Hge by lia. lia.
    + rewrite <- (Z.mod_add v 1 (2 ^ 32)) by lia.
      rewrite Z.mod_small by lia. lia.
Qed.

Lemma to_int32_eqm v : JS.to_int32 v mod 2 ^ 32 = v mod 2 ^ 32.
Proof.
  unfold JS.to_int32. cbv zeta.
  destruct (Z.ltb_spec (v mod 2 ^ 32) (2 ^ 31)).
  - apply Z.mod_mod. lia.
  - replace (v mod 2 ^ 32 - 2 ^ 32) with (v mod 2 ^ 32 + (-1) * 2 ^ 32) by lia.
    rewrite Z.mod_add by lia. apply Z.mod_mod. lia.
Qed.

Lemma testbit_to_int32 v n :
  0 <= n < 32 -> Z.testbit (JS.to_int32 v) n = Z.testbit v n.
Proof.
  intros Hn.
  rewrite <- (Z.mod_pow2_bits_low (JS.to_int32 v) 32 n) by lia.
  rewrite to_int32_eqm. apply Z.mod_pow2_bits_low. lia.
Qed.

Lemma testbit_to_uint32 v n :
  Z.testbit (JS.to_uint32 v) n = (n <? 32) && Z.testbit v n.
Proof. unfold JS.to_uint32. apply Z.testbit_mod_pow2. lia. Qed.

Lemma testbit_uint32_high v n :
  0 <= v < 2 ^ 32 -> 32 <= n -> Z.testbit v n = false.
Proof.
  intros Hv Hn. rewrite <- (Z.mod_small v (2 ^ 32)) by lia.
  apply Z.mod_pow2_bits_high. lia.
Qed.

(** Two unsigned 32-bit values with the same 32 low bits are equal. *)
Lemma uint32_ext a b :
  0 <= a < 2 ^ 32 -> 0 <= b < 2 ^ 32 ->
  (forall n, 0 <= n < 32 -> Z.testbit a n = Z.testbit b n) -> a = b.
Proof.
  intros Ha Hb Hbits. apply Z.bits_inj'. intros n Hn.
  destruct (Z.lt_ge_cases n 32).
  - apply Hbits. lia.
  - rewrite !testbit_uint32_high by lia. reflexivity.
Qed.

Lemma shift_count_small k : 0 <= k < 32 -> JS.shift_count k = k.
Proof.
  intros Hk. unfold JS.shift_count, JS.to_uint32.
  rewrite (Z.mod_small k (2 ^ 32)) by lia. apply Z.mod_small. lia.
Qed.

(** Bits of [a << k], [a >>> k], [a & b], [a | b] below position 32. *)
Lemma testbit_shl a k n :
  0 <= k < 32 -> 0 <= n < 32 ->
  Z.testbit (JS.shl a k) n = (k <=? n) && Z.testbit a (n - k).
Proof.
  intros Hk Hn. unfold JS.shl.
  rewrite testbit_to_int32, shift_count_small by lia.
  destruct (Z.leb_spec k n).
  - rewrite Z.shiftl_spec by lia. rewrite testbit_to_int32 by lia. reflexivity.
  - apply Z.shiftl_spec_low. lia.
Qed.

Lemma testbit_shr a k n :
  0 <= k < 32 -> 0 <= n ->
  Z.testbit (JS.shr a k) n = (n + k <? 32) && Z.testbit a (n + k).
Proof.
  intros Hk Hn. unfold JS.shr.
  rewrite shift_count_small by lia.
  rewrite Z.shiftr_spec by lia. apply testbit_to_uint32.
Qed.

Lemma testbit_and a b n :
  0 <= n < 32 ->
  Z.testbit (JS.and a b) n = Z.testbit a n && Z.testbit b n.
Proof.
  intros Hn. unfold JS.and.
  rewrite Z.land_spec, !testbit_to_int32 by lia. reflexivity.
Qed.

Lemma testbit_or a b n :
  0 <= n < 32 ->
  Z.testbit (JS.or a b) n = Z.testbit a n || Z.testbit b n.
Proof.
  intros Hn. unfold JS.or.
  rewrite Z.lor_spec, !testbit_to_int32 by lia. reflexivity.
Qed.

End Bits32.

(** ** Exhaustive checks over all [k]-bit values *)

Lemma forall_bits_spec k f acc :
  forall_bits k f acc = true ->
  forall v, 0 <= v < 2 ^ Z.of_nat k -> f (acc * 2 ^ Z.of_nat k + v) = true.
Proof.
  revert acc. induction k as [|k IH]; intros acc Hall v Hv.
  - simpl in Hall. change (2 ^ Z.of_nat 0) with 1 in *.
    replace (acc * 1 + v) with acc by lia. exact Hall.
  - simpl forall_bits in Hall. apply andb_true_iff in Hall as [Hl Hr].
    rewrite Nat2Z.inj_succ, Z.pow_succ_r in * by lia.
    destruct (Z.lt_ge_cases v (2 ^ Z.of_nat k)) as [Hlo | Hhi].
    + replace (acc * (2 * 2 ^ Z.of_nat k) + v)
        with (2 * acc * 2 ^ Z.of_nat k + v) by lia.
      apply IH; [exact Hl | lia].
    + replace (acc * (2 * 2 ^ Z.of_nat k) + v)
        with ((2 * acc + 1) * 2 ^ Z.of_nat k + (v - 2 ^ Z.of_nat k)) by lia.
      apply IH; [exact Hr | lia].
Qed.

Lemma forall_uint16 (f : Z -> bool) :
  forall_bits 16 f 0 = true -> forall v, 0 <= v < 2 ^ 16 -> f v = true.
Proof.
  intros Hall v Hv. apply (forall_bits_spec 16 f 0 Hall v). exact Hv.
Qed.

(** ** The codec on the supported range *)

Section Codec.

(** The bits of the mask [0x55555555] are the even positions below 32. *)
Lemma testbit_mask5 n :
  0 <= n -> Z.testbit 0x55555555 n = (n <? 32) && Z.even n.
Proof.
  intros Hn. destruct (Z.ltb_spec n 32) as [Hlt | Hge].
  - assert (Hin : n ∈ seqZ 0 32) by (apply elem_of_seqZ; lia).
    revert Hin. generalize n. apply Forall_forall.
    vm_compute. repeat constructor.
  - apply testbit_uint32_high; lia.
Qed.


Lemma gather_unfold x : gather x = gather_tail (JS.and x 0x55555555).
Proof. unfold gather, gather_tail. reflexivity. Qed.


Lemma scatter_unfold x : scatter x = JS.and (scatter_head x) 0x55555555.
Proof. unfold scatter, scatter_head. reflexivity. Qed.

Lemma and_mask5_bits a n :
  0 <= n ->
  Z.testbit (JS.and a 0x55555555) n
  = (n <? 32) && Z.even n && Z.testbit a n.
Proof.
  intros Hn. unfold JS.and. rewrite Z.land_spec.
  rewrite (to_int32_small 0x55555555) by lia.
  rewrite testbit_mask5 by lia.
  destruct (Z.ltb_spec n 32).
  - rewrite testbit_to_int32 by lia. simpl. apply andb_comm.
  - simpl. apply andb_false_r.
Qed.

(** The even bits of an interleaved index are those of the first
    scattered operand. *)
Lemma interleave_even a b :
  JS.and (interleave a b) 0x55555555 = scatter a.
Proof.
  unfold interleave. rewrite !scatter_unfold.
  apply Z.bits_inj'. intros n Hn.
  rewrite !and_mask5_bits by lia.
  destruct (Z.ltb_spec n 32) as [Hlt | Hge]; [|reflexivity].
  destruct (Z.even n) eqn:Hev; [|reflexivity]. simpl.
  rewrite testbit_or by lia. rewrite and_mask5_bits by lia.
  rewrite testbit_shl by lia. rewrite Hev.
  destruct (Z.ltb_spec n 32); [|lia]. simpl.
  destruct (Z.leb_spec 1 n); simpl.
  - rewrite and_mask5_bits by lia.
    replace (Z.even (n - 1)) with false.
    + rewrite andb_false_r. simpl. apply orb_false_r.
    + rewrite Z.even_sub, Hev. reflexivity.
  - apply orb_false_r.
Qed.

(** The odd bits, moved down by one, are those of the second. *)
Lemma interleave_odd a b :
  JS.and (JS.shr (interleave a b) 1) 0x55555555 = scatter b.
Proof.
  unfold interleave. rewrite !scatter_unfold.
  apply Z.bits_inj'. intros n Hn.
  rewrite !and_mask5_bits by lia.
  destruct (Z.ltb_spec n 32) as [Hlt | Hge]; [|reflexivity].
  destruct (Z.even n) eqn:Hev; [|reflexivity]. simpl.
  assert (Hn31 : n <> 31).
  { intros ->. vm_compute in Hev. discriminate. }
  rewrite testbit_shr by lia.
  destruct (Z.ltb_spec (n + 1) 32); [|lia]. simpl.
  rewrite testbit_or by lia. rewrite and_mask5_bits by lia.
  replace (Z.even (n + 1)) with false
    by (rewrite Z.even_add, Hev; reflexivity).
  rewrite andb_false_r. simpl.
  rewrite testbit_shl by lia.
  destruct (Z.leb_spec 1 (n + 1)); [|lia]. simpl.
  replace (n + 1 - 1) with n by lia.
  rewrite and_mask5_bits by lia. rewrite Hev.
  destruct (Z.ltb_spec n 32); [|lia]. reflexivity.
Qed.

(** *** The bit spreading on raw integers

    On operands whose bits above position 31 are clear, each step of
    [scatter] and [gather] is the same operation on unbounded
    integers, which evaluates quickly. *)


Lemma hi_clear_land a m : 0 <= m < 2 ^ 32 -> hi_clear (Z.land a m).
Proof.
  intros Hm n Hn. rewrite Z.land_spec, (testbit_uint32_high m) by lia.
  apply andb_false_r.
Qed.

Lemma hi_clear_and a m : 0 <= m < 2 ^ 31 -> hi_clear (JS.and a m).
Proof.
  intros Hm. unfold JS.and. rewrite (to_int32_small m) by lia.
  apply hi_clear_land. lia.
Qed.

Lemma spread_step_raw x k m :
  0 <= k < 32 -> 0 <= m < 2 ^ 31 ->
  JS.and (JS.or x (JS.shl x k)) m = Z.land (Z.lor x (Z.shiftl x k)) m.
Proof.
  intros Hk Hm. unfold JS.and. rewrite (to_int32_small m) by lia.
  apply Z.bits_inj'. intros n Hn. rewrite !Z.land_spec.
  destruct (Z.lt_ge_cases n 32).
  - f_equal. rewrite testbit_to_int32, testbit_or by lia.
    rewrite testbit_shl, Z.lor_spec, Z.shiftl_spec by lia. f_equal.
    destruct (Z.leb_spec k n); simpl; [reflexivity|].
    symmetry. apply Z.testbit_neg_r. lia.
  - rewrite (testbit_uint32_high m) by lia. rewrite !andb_false_r. reflexivity.
Qed.

Lemma squeeze_step_raw x k m :
  hi_clear x -> 0 <= k < 32 -> 0 <= m < 2 ^ 31 ->
  JS.and (JS.or x (JS.shr x k)) m = Z.land (Z.lor x (Z.shiftr x k)) m.
Proof.
  intros Hx Hk Hm. unfold JS.and. rewrite (to_int32_small m) by lia.
  apply Z.bits_inj'. intros n Hn. rewrite !Z.land_spec.
  destruct (Z.lt_ge_cases n 32).
  - f_equal. rewrite testbit_to_int32, testbit_or by lia.
    rewrite testbit_shr, Z.lor_spec, Z.shiftr_spec by lia. f_equal.
    destruct (Z.ltb_spec (n + k) 32); simpl; [reflexivity|].
    symmetry. apply Hx. lia.
  - rewrite (testbit_uint32_high m) by lia. rewrite !andb_false_r. reflexivity.
Qed.



Lemma scatter_is_raw x : scatter x = scatter_raw x.
Proof.
  unfold scatter, scatter_raw. cbv zeta.
  rewrite !spread_step_raw by lia. reflexivity.
Qed.

Lemma hi_clear_scatter x : hi_clear (scatter x).
Proof.
  rewrite scatter_is_raw. unfold scatter_raw. cbv zeta.
  apply hi_clear_land. lia.
Qed.

Lemma gather_tail_is_raw x : hi_clear x -> gather_tail x = gather_tail_raw x.
Proof.
  intros Hx. unfold gather_tail, gather_tail_raw. cbv zeta.
  rewrite !squeeze_step_raw
    by first [assumption | apply hi_clear_and; lia | apply hi_clear_land; lia | lia].
  reflexivity.
Qed.


Lemma gather_scatter_all : forall_bits 16 roundtrip16 0 = true.
Proof. vm_compute. reflexivity. Qed.

Lemma gather_tail_scatter a : 0 <= a < 2 ^ 16 -> gather_tail (scatter a) = a.
Proof.
  intros Ha. rewrite gather_tail_is_raw by apply hi_clear_scatter.
  rewrite scatter_is_raw.
  apply Z.eqb_eq. apply (forall_uint16 roundtrip16 gather_scatter_all a Ha).
Qed.

(** *** The zigzag transform *)

Lemma zigzag_encode_small x :
  - 2 ^ 30 <= x < 2 ^ 30 ->
  zigzag_encode x = if x <? 0 then - 2 * x - 1 else 2 * x.
Proof.
  intros Hx. unfold zigzag_encode, JS.shr, JS.xor, JS.shl, JS.sar.
  rewrite !shift_count_small by lia.
  rewrite (to_int32_small x) by lia.
  rewrite Z.shiftr_0_r.
  rewrite Z.shiftl_mul_pow2, Z.shiftr_div_pow2 by lia.
  rewrite !(to_int32_small (x * 2 ^ 1)) by lia.
  destruct (Z.ltb_spec x 0) as [Hneg | Hpos].
  - replace (x / 2 ^ 31) with (-1) by (apply Z.div_unique with (r := x + 2 ^ 31); lia).
    rewrite (to_int32_small (-1)) by lia.
    rewrite Z.lxor_m1_r. unfold Z.lnot.
    rewrite to_uint32_small by lia. lia.
  - rewrite Z.div_small by lia. rewrite (to_int32_small 0) by lia.
    rewrite Z.lxor_0_r. rewrite to_uint32_small by lia. lia.
Qed.

Lemma zigzag_decode_small z :
  0 <= z < 2 ^ 32 ->
  zigzag_decode z = if Z.even z then z / 2 else - (z / 2) - 1.
Proof.
  intros Hz. unfold zigzag_decode, JS.shr, JS.xor, JS.and, JS.sar.
  rewrite !shift_count_small by lia.
  rewrite Z.shiftr_0_r.
  rewrite (to_uint32_small z), Z.shiftr_div_pow2 by lia.
  change (2 ^ 1) with 2.
  assert (Hh : 0 <= z / 2 < 2 ^ 31).
  { split; [apply Z.div_pos; lia | apply Z.div_lt_upper_bound; lia]. }
  rewrite (to_int32_small (z / 2)), (to_int32_small 1) by lia.
  assert (Hlow : Z.land (JS.to_int32 z) 1 = Z.b2z (Z.odd z)).
  { change 1 with (Z.ones 1) at 1. rewrite Z.land_ones by lia.
    change (2 ^ 1) with 2.
    rewrite <- Z.bit0_mod, testbit_to_int32 by lia. rewrite Z.bit0_odd. reflexivity. }
  rewrite Hlow. rewrite <- Z.negb_odd.
  destruct (Z.odd z); simpl Z.b2z; simpl negb; cbv iota.
  - rewrite (to_int32_small (- (1))) by lia. rewrite Z.lxor_m1_r.
    unfold Z.lnot. rewrite to_int32_small by lia. lia.
  - rewrite (to_int32_small (- 0)) by lia.
    change (- 0) with 0. rewrite Z.lxor_0_r. apply to_int32_small. lia.
Qed.

Lemma zigzag_roundtrip x :
  - 2 ^ 15 <= x < 2 ^ 15 ->
  0 <= zigzag_encode x < 2 ^ 16 /\ zigzag_decode (zigzag_encode x) = x.
Proof.
  intros Hx. rewrite zigzag_encode_small by lia.
  destruct (Z.ltb_spec x 0).
  - split; [lia|]. rewrite zigzag_decode_small by lia.
    replace (- 2 * x - 1) with (1 + 2 * (- x - 1)) by lia.
    rewrite Z.even_add_mul_2. simpl.
    replace (1 + 2 * (- x - 1)) with ((- x - 1) * 2 + 1) by lia.
    rewrite Z.div_add_l by lia. change (1 / 2) with 0. lia.
  - split; [lia|]. rewrite zigzag_decode_small by lia.
    rewrite Z.even_mul. simpl.
    replace (2 * x) with (x * 2) by lia. rewrite Z.div_mul by lia. reflexivity.
Qed.

End Codec.

Lemma codec_roundtrip (p : Point.t) :
  in_range p -> Point.from_index (Point.index p) = p.
Proof.
  intros [Hx Hy]. destruct p as [px py]. simpl in Hx, Hy.
  destruct (zigzag_roundtrip px ltac:(lia)) as [Hax Hdx].
  destruct (zigzag_roundtrip py ltac:(lia)) as [Hay Hdy].
  unfold Point.from_index, Point.index, deinterleave. simpl Point.x. simpl Point.y.
  cbv zeta.
  rewrite !gather_unfold, interleave_even, interleave_odd.
  rewrite !gather_tail_scatter by assumption.
  rewrite Hdx, Hdy. reflexivity.
Qed.

(** C1. Round trip of the codec: for every point whose coordinates both
    lie in [-32768, 32767] (the zigzag code of each fits in 16 bits),
    decoding the index that [Point.index] produced gives the point back. *)
Theorem from_index_index (p : Point.t) :
  -32768 <= Point.x p <= 32767 ->
  -32768 <= Point.y p <= 32767 ->
  Point.from_index (Point.index p) = p.
Proof. intros Hx Hy. apply codec_roundtrip. split; assumption. Qed.

Lemma from_index_index_witness :
  Point.from_index (Point.index (Point.mk (-32768) 32767))
  = Point.mk (-32768) 32767.
Proof. apply from_index_index; simpl; lia. Defined.

(** ** Distinct points of the supported range have distinct slots *)

Section Injectivity.

Lemma to_int32_uint32 i : JS.to_int32 (JS.to_uint32 i) = JS.to_int32 i.
Proof.
  unfold JS.to_int32, JS.to_uint32. rewrite Z.mod_mod by lia. reflexivity.
Qed.

Lemma to_uint32_idem i : JS.to_uint32 (JS.to_uint32 i) = JS.to_uint32 i.
Proof. unfold JS.to_uint32. apply Z.mod_mod. lia. Qed.

(** Decoding looks at the low 32 bits of the index only. *)
Lemma from_index_uint32 i :
  Point.from_index (JS.to_uint32 i) = Point.from_index i.
Proof.
  assert (Hand : forall m, JS.and (JS.to_uint32 i) m = JS.and i m).
  { intros m. unfold JS.and. by rewrite to_int32_uint32. }
  assert (Hshr : forall k, JS.shr (JS.to_uint32 i) k = JS.shr i k).
  { intros k. unfold JS.shr. by rewrite to_uint32_idem. }
  unfold Point.from_index, deinterleave.
  rewrite !gather_unfold, Hshr, Hand. reflexivity.
Qed.

Lemma testbit_low4 a n :
  0 <= n < 4 -> Z.testbit (JS.and a (JS.shl 1 4 - 1)) n = Z.testbit a n.
Proof.
  intros Hn. rewrite testbit_and by lia.
  change (JS.shl 1 4 - 1) with (Z.ones 4).
  rewrite Z.testbit_ones_nonneg by lia.
  destruct (Z.ltb_spec n 4); [apply andb_true_r | lia].
Qed.

(** The index triple determines the low 32 bits of the index. *)
Lemma indexes_bits p n :
  0 <= n < 32 ->
  Z.testbit (Point.index p) n
  = let '(ci, wi, si) := Point.indexes p in
    if n <? 4 then Z.testbit si n
    else if n <? 8 then Z.testbit wi (n - 4)
    else Z.testbit ci (n - 8).
Proof.
  intros Hn. unfold Point.indexes, extract_lo_bits. cbv zeta.
  change SLOT_INDEX_BITS with 4. change WORD_INDEX_BITS with 4.
  destruct (Z.ltb_spec n 4); [by rewrite testbit_low4 by lia|].
  destruct (Z.ltb_spec n 8).
  - rewrite testbit_low4, testbit_shr by lia.
    destruct (Z.ltb_spec (n - 4 + 4) 32); [|lia]. simpl andb.
    f_equal. lia.
  - rewrite !testbit_shr by lia.
    destruct (Z.ltb_spec (n - 8 + 4) 32); [|lia].
    destruct (Z.ltb_spec (n - 8 + 4 + 4) 32); [|lia]. simpl andb.
    f_equal. lia.
Qed.

Lemma indexes_index p q :
  Point.indexes p = Point.indexes q ->
  JS.to_uint32 (Point.index p) = JS.to_uint32 (Point.index q).
Proof.
  intros Heq. apply uint32_ext; try apply to_uint32_range.
  intros n Hn. rewrite !testbit_to_uint32.
  rewrite !indexes_bits by lia. rewrite Heq. reflexivity.
Qed.

Lemma indexes_inj p q :
  in_range p -> in_range q -> Point.indexes p = Point.indexes q -> p = q.
Proof.
  intros Hp Hq Heq.
  rewrite <- (codec_roundtrip p Hp), <- (codec_roundtrip q Hq).
  rewrite <- (from_index_uint32 (Point.index p)).
  rewrite <- (from_index_uint32 (Point.index q)).
  by rewrite (indexes_index p q Heq).
Qed.

End Injectivity.

(** ** Coordinates outside the supported range *)

Lemma scatter_low24 z1 z2 :
  z1 mod 2 ^ 24 = z2 mod 2 ^ 24 -> scatter z1 = scatter z2.
Proof.
  intros Heq. rewrite !scatter_is_raw. unfold scatter_raw. cbv zeta.
  assert (Hstep : Z.land (Z.lor z1 (Z.shiftl z1 8)) 0x00ff00ff
                  = Z.land (Z.lor z2 (Z.shiftl z2 8)) 0x00ff00ff).
  { apply Z.bits_inj'. intros n Hn. rewrite !Z.land_spec.
    destruct (Z.lt_ge_cases n 24).
    - f_equal. rewrite !Z.lor_spec, !Z.shiftl_spec by lia.
      rewrite <- (Z.mod_pow2_bits_low z1 24 n), <- (Z.mod_pow2_bits_low z2 24 n) by lia.
      rewrite <- (Z.mod_pow2_bits_low z1 24 (n - 8)) by lia.
      rewrite <- (Z.mod_pow2_bits_low z2 24 (n - 8)) by lia.
      rewrite Heq. reflexivity.
    - replace (Z.testbit 0x00ff00ff n) with false; [rewrite !andb_false_r; reflexivity|].
      symmetry. change 0x00ff00ff with (0x00ff00ff mod 2 ^ 24).
      apply Z.mod_pow2_bits_high. lia. }
  rewrite Hstep. reflexivity.
Qed.

(** C10, as stated, fails: the zigzag codes of 0 and 65536 agree modulo
    2^16, yet (0, 0) and (65536, 0) have different indices. *)
Lemma index_low16_counterexample :
  zigzag_encode 0 mod 2 ^ 16 = zigzag_encode 65536 mod 2 ^ 16 /\
  Point.index (Point.mk 0 0) = 0 /\
  Point.index (Point.mk 65536 0) = 262144 /\
  Point.index (Point.mk 0 0) <> Point.index (Point.mk 65536 0).
Proof. vm_compute. repeat split; congruence. Qed.

(** An out-of-range point that aliases a different in-range one. *)
Example index_alias_in_range :
  Point.index (Point.mk 32896 0) = Point.index (Point.mk 128 0).
Proof. vm_compute. reflexivity. Qed.

(** ** Slots of a word *)

Section Slots.

Lemma land3_bits y :
  Z.land y 3 = Z.b2z (Z.testbit y 0) + 2 * Z.b2z (Z.testbit y 1).
Proof.
  change 3 with (Z.ones 2). rewrite Z.land_ones by lia.
  rewrite Z.bit0_mod, (Z.testbit_spec' y 1) by lia.
  change (2 ^ 2) with (2 * 2). change (2 ^ 1) with 2.
  rewrite Z.rem_mul_r by lia. reflexivity.
Qed.

Lemma slot_field_bits w s :
  0 <= s < 16 ->
  slot_field w s
  = Z.b2z (Z.testbit w (s * 2)) + 2 * Z.b2z (Z.testbit w (s * 2 + 1)).
Proof.
  intros Hs. unfold slot_field, JS.and.
  rewrite (to_int32_small 3) by lia. rewrite land3_bits.
  rewrite !testbit_to_int32, !testbit_shr by lia.
  destruct (Z.ltb_spec (0 + s * 2) 32); [|lia].
  destruct (Z.ltb_spec (1 + s * 2) 32); [|lia].
  simpl andb. replace (0 + s * 2) with (s * 2) by lia.
  replace (1 + s * 2) with (s * 2 + 1) by lia. reflexivity.
Qed.

Lemma slot_field_range w s : 0 <= s < 16 -> 0 <= slot_field w s <= 3.
Proof.
  intros Hs. rewrite slot_field_bits by lia.
  destruct (Z.testbit w (s * 2)), (Z.testbit w (s * 2 + 1)); simpl; lia.
Qed.

Lemma slot_field_zero w s :
  0 <= s < 16 ->
  slot_field w s = 0 <->
  Z.testbit w (s * 2) = false /\ Z.testbit w (s * 2 + 1) = false.
Proof.
  intros Hs. rewrite slot_field_bits by lia.
  destruct (Z.testbit w (s * 2)), (Z.testbit w (s * 2 + 1)); simpl;
    (split; [intros H; try lia; split; reflexivity
            | intros [H0 H1]; try discriminate; reflexivity]).
Qed.

(** Two words that agree on the two bits of a slot have the same field. *)
Lemma slot_field_ext w w' s :
  0 <= s < 16 ->
  Z.testbit w' (s * 2) = Z.testbit w (s * 2) ->
  Z.testbit w' (s * 2 + 1) = Z.testbit w (s * 2 + 1) ->
  slot_field w' s = slot_field w s.
Proof.
  intros Hs H0 H1. rewrite !slot_field_bits by lia. rewrite H0, H1. reflexivity.
Qed.

Lemma testbit_shl_1 k n :
  0 <= k < 32 -> 0 <= n < 32 -> Z.testbit (JS.shl 1 k) n = (n =? k).
Proof.
  intros Hk Hn. rewrite testbit_shl by lia.
  change (Z.testbit 1 (n - k)) with (Z.testbit (2 ^ 0) (n - k)).
  rewrite Z.pow2_bits_eqb by lia.
  destruct (Z.leb_spec k n), (Z.eqb_spec 0 (n - k)), (Z.eqb_spec n k);
    simpl; lia || reflexivity.
Qed.

Lemma testbit_shl_3 k n :
  0 <= k < 32 -> 0 <= n < 32 ->
  Z.testbit (JS.shl 3 k) n = (k <=? n) && (n <? k + 2).
Proof.
  intros Hk Hn. rewrite testbit_shl by lia.
  destruct (Z.leb_spec k n); simpl; [|reflexivity].
  change 3 with (Z.ones 2). rewrite Z.testbit_ones_nonneg by lia.
  destruct (Z.ltb_spec (n - k) 2), (Z.ltb_spec n (k + 2)); lia || reflexivity.
Qed.

(** The word that [Chunk.set] stores. *)
Lemma set_word_bits w s st n :
  0 <= s < 16 -> 0 <= n < 32 ->
  Z.testbit (JS.to_uint32 (JS.or w (JS.shl 1 (s * 2 + Stone_to_Z st)))) n
  = Z.testbit w n || (n =? s * 2 + Stone_to_Z st).
Proof.
  intros Hs Hn. rewrite testbit_to_uint32.
  destruct (Z.ltb_spec n 32); [|lia]. simpl andb.
  rewrite testbit_or by lia.
  rewrite testbit_shl_1 by (destruct st; simpl; lia). reflexivity.
Qed.

(** The word that [Chunk.unset] stores. *)
Lemma clear_word_bits w s n :
  0 <= s < 16 -> 0 <= n < 32 ->
  Z.testbit (JS.to_uint32 (JS.and w (JS.not (JS.shl 3 (s * 2))))) n
  = Z.testbit w n && negb ((s * 2 <=? n) && (n <? s * 2 + 2)).
Proof.
  intros Hs Hn. rewrite testbit_to_uint32.
  destruct (Z.ltb_spec n 32); [|lia]. simpl andb.
  rewrite testbit_and by lia. unfold JS.not.
  rewrite Z.lnot_spec by lia. rewrite testbit_to_int32 by lia.
  rewrite testbit_shl_3 by lia. reflexivity.
Qed.

Lemma slot_field_set_same w s st :
  0 <= s < 16 -> slot_field w s = 0 ->
  stone_of_field
    (slot_field (JS.to_uint32 (JS.or w (JS.shl 1 (s * 2 + Stone_to_Z st)))) s)
  = Some st.
Proof.
  intros Hs Hz. apply slot_field_zero in Hz as [H0 H1]; [|lia].
  rewrite slot_field_bits by lia. rewrite !set_word_bits by lia.
  rewrite H0, H1. simpl orb.
  destruct st; simpl Stone_to_Z.
  - destruct (Z.eqb_spec (s * 2) (s * 2 + 0)); [|lia].
    destruct (Z.eqb_spec (s * 2 + 1) (s * 2 + 0)); [lia|]. reflexivity.
  - destruct (Z.eqb_spec (s * 2) (s * 2 + 1)); [lia|].
    destruct (Z.eqb_spec (s * 2 + 1) (s * 2 + 1)); [|lia]. reflexivity.
Qed.

Lemma slot_field_set_other w s st s' :
  0 <= s < 16 -> 0 <= s' < 16 -> s' <> s ->
  slot_field (JS.to_uint32 (JS.or w (JS.shl 1 (s * 2 + Stone_to_Z st)))) s'
  = slot_field w s'.
Proof.
  intros Hs Hs' Hne. apply slot_field_ext; [lia | |];
    rewrite set_word_bits by lia.
  - destruct (Z.eqb_spec (s' * 2) (s * 2 + Stone_to_Z st));
      [destruct st; simpl in *; lia | apply orb_false_r].
  - destruct (Z.eqb_spec (s' * 2 + 1) (s * 2 + Stone_to_Z st));
      [destruct st; simpl in *; lia | apply orb_false_r].
Qed.

Lemma slot_field_clear_same w s :
  0 <= s < 16 ->
  slot_field (JS.to_uint32 (JS.and w (JS.not (JS.shl 3 (s * 2))))) s = 0.
Proof.
  intros Hs. apply slot_field_zero; [lia|].
  rewrite !clear_word_bits by lia.
  destruct (Z.leb_spec (s * 2) (s * 2)); [|lia].
  destruct (Z.leb_spec (s * 2) (s * 2 + 1)); [|lia].
  destruct (Z.ltb_spec (s * 2) (s * 2 + 2)); [|lia].
  destruct (Z.ltb_spec (s * 2 + 1) (s * 2 + 2)); [|lia].
  simpl. rewrite !andb_false_r. split; reflexivity.
Qed.

Lemma slot_field_clear_other w s s' :
  0 <= s < 16 -> 0 <= s' < 16 -> s' <> s ->
  slot_field (JS.to_uint32 (JS.and w (JS.not (JS.shl 3 (s * 2))))) s'
  = slot_field w s'.
Proof.
  intros Hs Hs' Hne. apply slot_field_ext; [lia | |];
    rewrite clear_word_bits by lia.
  - destruct (Z.leb_spec (s * 2) (s' * 2)), (Z.ltb_spec (s' * 2) (s * 2 + 2));
      simpl; try lia; apply andb_true_r.
  - destruct (Z.leb_spec (s * 2) (s' * 2 + 1)),
      (Z.ltb_spec (s' * 2 + 1) (s * 2 + 2)); simpl; try lia; apply andb_true_r.
Qed.

(** Clearing an empty slot stores the word that was there. *)
Lemma clear_word_empty w s :
  0 <= w < 2 ^ 32 -> 0 <= s < 16 -> slot_field w s = 0 ->
  JS.to_uint32 (JS.and w (JS.not (JS.shl 3 (s * 2)))) = w.
Proof.
  intros Hw Hs Hz. apply slot_field_zero in Hz as [H0 H1]; [|lia].
  apply uint32_ext; [apply to_uint32_range | exact Hw |].
  intros n Hn. rewrite clear_word_bits by lia.
  destruct (Z.leb_spec (s * 2) n), (Z.ltb_spec n (s * 2 + 2)); simpl;
    try apply andb_true_r.
  assert (Hcase : n = s * 2 \/ n = s * 2 + 1) by lia.
  destruct Hcase as [-> | ->]; [rewrite H0 | rewrite H1]; reflexivity.
Qed.

End Slots.

(** ** Chunks *)

Section Chunks.

Lemma stone_of_field_none f : stone_of_field f = None <-> f = 0.
Proof.
  unfold stone_of_field. destruct f as [|[q|q|]|q]; split; intros H;
    try discriminate; try reflexivity; try lia.
Qed.

Lemma chunk_get_field c wi si :
  Chunk.get c wi si = stone_of_field (slot_field (Chunk.word_at c wi) si).
Proof. reflexivity. Qed.

Lemma words_per_chunk : Z.to_nat WORDS_PER_CHUNK = 16%nat.
Proof. reflexivity. Qed.

Lemma wf_chunk_new : wf_chunk Chunk.new.
Proof.
  split.
  - unfold Chunk.new. apply length_replicate.
  - unfold Chunk.new. apply Forall_replicate. lia.
Qed.

Lemma wf_chunk_store c i v : wf_chunk c -> wf_chunk (Chunk.store c i v).
Proof.
  intros [Hlen Hall]. unfold Chunk.store.
  destruct (Z.ltb_spec i 0); [split; assumption|]. split.
  - rewrite length_insert. exact Hlen.
  - apply Forall_insert; [exact Hall | apply to_uint32_range].
Qed.

Lemma word_at_range c i : wf_chunk c -> 0 <= Chunk.word_at c i < 2 ^ 32.
Proof.
  intros [_ Hall]. unfold Chunk.word_at.
  destruct (Z.ltb_spec i 0); [lia|].
  destruct (c !! Z.to_nat i) as [w|] eqn:Hw; simpl; [|lia].
  exact (Forall_lookup_1 (fun w => 0 <= w < 2 ^ 32) c _ w Hall Hw).
Qed.

Lemma word_at_store_same c i v :
  wf_chunk c -> 0 <= i < 16 ->
  Chunk.word_at (Chunk.store c i v) i = JS.to_uint32 v.
Proof.
  intros [Hlen _] Hi. unfold Chunk.word_at, Chunk.store.
  destruct (Z.ltb_spec i 0); [lia|].
  rewrite list_lookup_insert_eq; [reflexivity|].
  rewrite Hlen, words_per_chunk. lia.
Qed.

Lemma word_at_store_other c i j v :
  i <> j -> Chunk.word_at (Chunk.store c i v) j = Chunk.word_at c j.
Proof.
  intros Hne. unfold Chunk.word_at, Chunk.store.
  destruct (Z.ltb_spec j 0); [reflexivity|].
  destruct (Z.ltb_spec i 0); [reflexivity|].
  rewrite list_lookup_insert_ne by lia. reflexivity.
Qed.

Lemma store_same_word c i :
  wf_chunk c -> 0 <= i < 16 ->
  Chunk.store c i (Chunk.word_at c i) = c.
Proof.
  intros Hwf Hi. pose proof (word_at_range c i Hwf) as Hr.
  destruct Hwf as [Hlen _].
  unfold Chunk.store, Chunk.word_at in *.
  destruct (Z.ltb_spec i 0); [lia|].
  destruct (c !! Z.to_nat i) as [w|] eqn:Hw; simpl in *.
  - rewrite to_uint32_small by lia. apply list_insert_id. exact Hw.
  - apply lookup_ge_None in Hw. rewrite Hlen, words_per_chunk in Hw. lia.
Qed.

Lemma store_uint32 c i v :
  Chunk.store c i (JS.to_uint32 v) = Chunk.store c i v.
Proof.
  unfold Chunk.store, JS.to_uint32. rewrite Z.mod_mod by lia. reflexivity.
Qed.

Lemma chunk_set_empty c wi si st :
  Chunk.get c wi si = None ->
  Chunk.set c wi si st
  = (Chunk.store c wi
       (JS.or (Chunk.word_at c wi) (JS.shl 1 (si * 2 + Stone_to_Z st))),
     true).
Proof.
  rewrite chunk_get_field, stone_of_field_none. unfold slot_field. intros Hz.
  unfold Chunk.set. cbv zeta. rewrite Hz. reflexivity.
Qed.

Lemma chunk_set_occupied c wi si st :
  Chunk.get c wi si <> None -> Chunk.set c wi si st = (c, false).
Proof.
  rewrite chunk_get_field, stone_of_field_none. unfold slot_field. intros Hnz.
  unfold Chunk.set. cbv zeta.
  destruct (Z.eqb_spec (JS.and (JS.shr (Chunk.word_at c wi) (si * 2)) 3) 0);
    [contradiction | reflexivity].
Qed.

Lemma chunk_unset_eq c wi si :
  Chunk.unset c wi si
  = (Chunk.store c wi
       (JS.and (Chunk.word_at c wi) (JS.not (JS.shl 3 (si * 2)))),
     Chunk.get c wi si).
Proof. reflexivity. Qed.

(** Reading a slot after a store into the same chunk. *)
Lemma chunk_get_set_same c wi si st :
  wf_chunk c -> 0 <= wi < 16 -> 0 <= si < 16 ->
  Chunk.get c wi si = None ->
  Chunk.get (fst (Chunk.set c wi si st)) wi si = Some st.
Proof.
  intros Hwf Hwi Hsi Hnone. rewrite chunk_set_empty by assumption. simpl fst.
  rewrite chunk_get_field, word_at_store_same by assumption.
  apply slot_field_set_same; [assumption|].
  apply stone_of_field_none. rewrite <- chunk_get_field. assumption.
Qed.

Lemma chunk_get_set_other c wi si st wj sj :
  wf_chunk c -> 0 <= wi < 16 -> 0 <= si < 16 -> 0 <= sj < 16 ->
  (wj, sj) <> (wi, si) ->
  Chunk.get (fst (Chunk.set c wi si st)) wj sj = Chunk.get c wj sj.
Proof.
  intros Hwf Hwi Hsi Hsj Hne.
  destruct (Chunk.get c wi si) as [old|] eqn:Hold.
  - rewrite chunk_set_occupied by congruence. reflexivity.
  - rewrite chunk_set_empty by assumption. simpl fst.
    rewrite !chunk_get_field.
    destruct (Z.eq_dec wi wj) as [-> | Hw].
    + rewrite word_at_store_same by assumption.
      rewrite slot_field_set_other; [reflexivity | lia | lia | congruence].
    + rewrite word_at_store_other by assumption. reflexivity.
Qed.

Lemma chunk_get_unset_same c wi si :
  wf_chunk c -> 0 <= wi < 16 -> 0 <= si < 16 ->
  Chunk.get (fst (Chunk.unset c wi si)) wi si = None.
Proof.
  intros Hwf Hwi Hsi. rewrite chunk_unset_eq. simpl fst.
  rewrite chunk_get_field, word_at_store_same by assumption.
  rewrite slot_field_clear_same by assumption. reflexivity.
Qed.

Lemma chunk_get_unset_other c wi si wj sj :
  wf_chunk c -> 0 <= wi < 16 -> 0 <= si < 16 -> 0 <= sj < 16 ->
  (wj, sj) <> (wi, si) ->
  Chunk.get (fst (Chunk.unset c wi si)) wj sj = Chunk.get c wj sj.
Proof.
  intros Hwf Hwi Hsi Hsj Hne. rewrite chunk_unset_eq. simpl fst.
  rewrite !chunk_get_field.
  destruct (Z.eq_dec wi wj) as [-> | Hw].
  - rewrite word_at_store_same by assumption.
    rewrite slot_field_clear_other; [reflexivity | lia | lia | congruence].
  - rewrite word_at_store_other by assumption. reflexivity.
Qed.

Lemma chunk_unset_empty c wi si :
  wf_chunk c -> 0 <= wi < 16 -> 0 <= si < 16 ->
  Chunk.get c wi si = None -> fst (Chunk.unset c wi si) = c.
Proof.
  intros Hwf Hwi Hsi Hnone. rewrite chunk_unset_eq. simpl fst.
  rewrite chunk_get_field, stone_of_field_none in Hnone.
  pose proof (word_at_range c wi Hwf) as Hr.
  rewrite <- store_uint32, clear_word_empty by assumption.
  apply store_same_word; assumption.
Qed.

Lemma wf_chunk_set c wi si st :
  wf_chunk c -> wf_chunk (fst (Chunk.set c wi si st)).
Proof.
  intros Hwf. unfold Chunk.set. cbv zeta.
  destruct (negb _); simpl; [assumption | by apply wf_chunk_store].
Qed.

Lemma wf_chunk_unset c wi si :
  wf_chunk c -> wf_chunk (fst (Chunk.unset c wi si)).
Proof. intros Hwf. rewrite chunk_unset_eq. by apply wf_chunk_store. Qed.

End Chunks.

(** ** The sparse grid *)

Section Grid.

Lemma low_bits_range a : 0 <= JS.and a (JS.shl 1 4 - 1) < 16.
Proof.
  change (JS.shl 1 4 - 1) with (Z.ones 4). unfold JS.and.
  rewrite (to_int32_small (Z.ones 4)) by (change (Z.ones 4) with 15; lia).
  rewrite Z.land_ones by lia. apply Z.mod_pos_bound. lia.
Qed.

Lemma indexes_valid p : valid_key (Point.indexes p).
Proof.
  unfold valid_key, Point.indexes, extract_lo_bits. cbv zeta. simpl.
  split; apply low_bits_range.
Qed.

Lemma raw_get_cell g p : RawBoard.get g p = cell g (Point.indexes p).
Proof.
  unfold RawBoard.get, cell, RawBoard.chunk.
  destruct (Point.indexes p) as [[ci wi] si]. reflexivity.
Qed.

Lemma wf_grid_new : wf_grid RawBoard.new.
Proof. intros i c Hic. unfold RawBoard.new in Hic. by rewrite lookup_empty in Hic. Qed.

Lemma cell_new k : cell RawBoard.new k = None.
Proof. unfold cell, RawBoard.new. by rewrite lookup_empty. Qed.

Lemma wf_grid_insert (g : RawBoard.t) i c :
  wf_grid g -> wf_chunk c -> wf_grid (<[i := c]> g).
Proof.
  intros Hg Hc j c' Hj. destruct (decide (i = j)) as [-> | Hne].
  - rewrite lookup_insert_eq in Hj. by inversion Hj; subst.
  - rewrite lookup_insert_ne in Hj by assumption. by eapply Hg.
Qed.

(** [RawBoard.set], seen through the chunk (fresh or found) it works on. *)
Lemma raw_set_eq g p st :
  RawBoard.set g p st =
  let '(ci, wi, si) := Point.indexes p in
  let c := default Chunk.new (g !! ci) in
  (<[ci := fst (Chunk.set c wi si st)]> g, snd (Chunk.set c wi si st)).
Proof.
  unfold RawBoard.set, RawBoard.chunk_or_default.
  destruct (Point.indexes p) as [[ci wi] si]. cbv zeta.
  destruct (g !! ci) as [c|] eqn:Hc; simpl.
  - destruct (Chunk.set c wi si st). reflexivity.
  - destruct (Chunk.set Chunk.new wi si st). simpl.
    rewrite insert_insert_eq. reflexivity.
Qed.

Lemma raw_unset_eq g p :
  RawBoard.unset g p =
  let '(ci, wi, si) := Point.indexes p in
  match g !! ci with
  | None => (g, None)
  | Some c => (<[ci := fst (Chunk.unset c wi si)]> g, Chunk.get c wi si)
  end.
Proof.
  unfold RawBoard.unset, RawBoard.chunk.
  destruct (Point.indexes p) as [[ci wi] si].
  destruct (g !! ci) as [c|]; reflexivity.
Qed.

Lemma chunk_get_new wi si : Chunk.get Chunk.new wi si = None.
Proof.
  rewrite chunk_get_field. unfold Chunk.word_at.
  assert (Hz : (if wi <? 0 then 0 else default 0 (Chunk.new !! Z.to_nat wi)) = 0).
  { destruct (wi <? 0); [reflexivity|]. unfold Chunk.new.
    destruct (replicate (Z.to_nat WORDS_PER_CHUNK) 0 !! Z.to_nat wi) as [w|] eqn:Hw;
      [|reflexivity].
    apply lookup_replicate in Hw as [-> _]. reflexivity. }
  rewrite Hz. unfold slot_field, JS.shr.
  change (JS.to_uint32 0) with 0. rewrite Z.shiftr_0_l. reflexivity.
Qed.

(** The slot that [set] and [get] address is empty or not according to
    [cell], also when the chunk does not exist yet. *)
Lemma cell_default (g : RawBoard.t) ci wi si :
  Chunk.get (default Chunk.new (g !! ci)) wi si = cell g (ci, wi, si).
Proof.
  unfold cell. simpl. destruct (g !! ci); simpl; [reflexivity|].
  apply chunk_get_new.
Qed.

Lemma wf_default (g : RawBoard.t) ci :
  wf_grid g -> wf_chunk (default Chunk.new (g !! ci)).
Proof.
  intros Hg. destruct (g !! ci) as [c|] eqn:Hc; simpl;
    [by eapply Hg | apply wf_chunk_new].
Qed.

Lemma raw_set_result g p st :
  snd (RawBoard.set g p st)
  = match cell g (Point.indexes p) with None => true | Some _ => false end.
Proof.
  rewrite raw_set_eq. destruct (Point.indexes p) as [[ci wi] si]. cbv zeta.
  simpl snd. rewrite <- cell_default.
  destruct (Chunk.get (default Chunk.new (g !! ci)) wi si) eqn:Hget.
  - rewrite chunk_set_occupied by congruence. reflexivity.
  - rewrite chunk_set_empty by assumption. reflexivity.
Qed.

Lemma raw_set_occupied g p st :
  cell g (Point.indexes p) <> None -> RawBoard.set g p st = (g, false).
Proof.
  intros Hocc. rewrite raw_set_eq.
  destruct (Point.indexes p) as [[ci wi] si]. cbv zeta.
  unfold cell in Hocc. simpl in Hocc.
  destruct (g !! ci) as [c|] eqn:Hc; [|contradiction]. simpl default.
  rewrite chunk_set_occupied by assumption. simpl.
  rewrite insert_id by assumption. reflexivity.
Qed.

Lemma cell_set_same g p st :
  wf_grid g -> cell g (Point.indexes p) = None ->
  cell (fst (RawBoard.set g p st)) (Point.indexes p) = Some st.
Proof.
  intros Hg Hnone. rewrite raw_set_eq.
  pose proof (indexes_valid p) as [Hw Hs].
  destruct (Point.indexes p) as [[ci wi] si]. cbv zeta. simpl in *.
  unfold cell at 1. simpl. rewrite lookup_insert_eq.
  apply chunk_get_set_same; [by apply wf_default | assumption | assumption |].
  rewrite cell_default. exact Hnone.
Qed.

Lemma cell_set_other g p st k :
  wf_grid g -> valid_key k -> k <> Point.indexes p ->
  cell (fst (RawBoard.set g p st)) k = cell g k.
Proof.
  intros Hg [Hkw Hks] Hne. rewrite raw_set_eq.
  pose proof (indexes_valid p) as [Hw Hs].
  destruct (Point.indexes p) as [[ci wi] si]. cbv zeta.
  destruct k as [[cj wj] sj]. simpl in *.
  destruct (decide (ci = cj)) as [-> | Hc].
  - unfold cell at 1. simpl. rewrite lookup_insert_eq.
    rewrite chunk_get_set_other;
      [apply cell_default | by apply wf_default | assumption.. | congruence].
  - unfold cell. simpl. rewrite lookup_insert_ne by assumption. reflexivity.
Qed.

Lemma wf_raw_set g p st : wf_grid g -> wf_grid (fst (RawBoard.set g p st)).
Proof.
  intros Hg. rewrite raw_set_eq.
  destruct (Point.indexes p) as [[ci wi] si]. cbv zeta. simpl fst.
  apply wf_grid_insert; [assumption|].
  apply wf_chunk_set. by apply wf_default.
Qed.

Lemma raw_unset_result g p :
  snd (RawBoard.unset g p) = cell g (Point.indexes p).
Proof.
  rewrite raw_unset_eq. destruct (Point.indexes p) as [[ci wi] si].
  unfold cell. simpl. destruct (g !! ci); reflexivity.
Qed.

Lemma cell_unset_same g p :
  wf_grid g -> cell (fst (RawBoard.unset g p)) (Point.indexes p) = None.
Proof.
  intros Hg. rewrite raw_unset_eq.
  pose proof (indexes_valid p) as [Hw Hs].
  destruct (Point.indexes p) as [[ci wi] si]. simpl in *.
  destruct (g !! ci) as [c|] eqn:Hc; simpl fst.
  - unfold cell. simpl. rewrite lookup_insert_eq.
    apply chunk_get_unset_same; [by eapply Hg | assumption..].
  - unfold cell. simpl. by rewrite Hc.
Qed.

Lemma cell_unset_other g p k :
  wf_grid g -> valid_key k -> k <> Point.indexes p ->
  cell (fst (RawBoard.unset g p)) k = cell g k.
Proof.
  intros Hg [Hkw Hks] Hne. rewrite raw_unset_eq.
  pose proof (indexes_valid p) as [Hw Hs].
  destruct (Point.indexes p) as [[ci wi] si].
  destruct k as [[cj wj] sj]. simpl in *.
  destruct (g !! ci) as [c|] eqn:Hc; simpl fst; [|reflexivity].
  destruct (decide (ci = cj)) as [-> | Hcne].
  - unfold cell. simpl. rewrite lookup_insert_eq, Hc.
    apply chunk_get_unset_other; [by eapply Hg | assumption.. | congruence].
  - unfold cell. simpl. rewrite lookup_insert_ne by assumption. reflexivity.
Qed.

Lemma raw_unset_empty g p :
  wf_grid g -> cell g (Point.indexes p) = None ->
  RawBoard.unset g p = (g, None).
Proof.
  intros Hg Hnone. rewrite raw_unset_eq.
  pose proof (indexes_valid p) as [Hw Hs].
  destruct (Point.indexes p) as [[ci wi] si]. unfold cell in Hnone.
  simpl in Hnone, Hw, Hs.
  destruct (g !! ci) as [c|] eqn:Hc; [|reflexivity].
  rewrite chunk_unset_empty by (assumption || by eapply Hg).
  rewrite insert_id by assumption. by rewrite Hnone.
Qed.

Lemma wf_raw_unset g p : wf_grid g -> wf_grid (fst (RawBoard.unset g p)).
Proof.
  intros Hg. rewrite raw_unset_eq.
  destruct (Point.indexes p) as [[ci wi] si].
  destruct (g !! ci) as [c|] eqn:Hc; simpl fst; [|assumption].
  apply wf_grid_insert; [assumption|].
  apply wf_chunk_unset. by eapply Hg.
Qed.

End Grid.

#[global] Hint Resolve wf_grid_new wf_chunk_new indexes_valid
  wf_raw_set wf_raw_unset : c6.

(** ** Grids built by calls *)

Section GridCalls.

Lemma wf_raw_perform_all cs : forall g,
  wf_grid g -> wf_grid (raw_perform_all cs g).
Proof.
  induction cs as [|c cs IH]; intros g Hg; simpl; [assumption|].
  apply IH. destruct c; simpl; auto with c6.
Qed.

(** A slot that no call of a sequence writes a stone into stays empty. *)
Lemma cell_never_set cs : forall g k,
  wf_grid g -> valid_key k -> cell g k = None ->
  Forall (leaves_slot k) cs ->
  cell (raw_perform_all cs g) k = None.
Proof.
  induction cs as [|c cs IH]; intros g k Hg Hk Hnone Hall; simpl;
    [assumption|].
  apply Forall_cons in Hall as [Hc Hcs].
  apply IH; [ | assumption | | assumption].
  - destruct c; simpl; auto with c6.
  - destruct c as [q s | q]; simpl in *.
    + rewrite cell_set_other by (assumption || congruence). exact Hnone.
    + destruct (decide (Point.indexes q = k)) as [<- | Hne].
      * by apply cell_unset_same.
      * rewrite cell_unset_other by (assumption || congruence). exact Hnone.
Qed.

(** On a grid built from the empty one, [unset] of a point whose slot no
    call wrote into returns empty and changes nothing. *)
Lemma unset_never_set cs p :
  Forall (leaves_slot (Point.indexes p)) cs ->
  let g := raw_perform_all cs RawBoard.new in
  RawBoard.get g p = None /\ RawBoard.unset g p = (g, None).
Proof.
  intros Hall g.
  assert (Hnone : cell g (Point.indexes p) = None).
  { apply cell_never_set; auto using cell_new with c6. }
  split; [by rewrite raw_get_cell|].
  apply raw_unset_empty; [|exact Hnone].
  apply wf_raw_perform_all, wf_grid_new.
Qed.

(** Within the supported range, a call on another point leaves the slot
    of [p] alone. *)
Lemma leaves_slot_in_range p q s :
  in_range p -> in_range q -> q <> p ->
  leaves_slot (Point.indexes p) (RawSet q s).
Proof.
  intros Hp Hq Hne Heq. apply Hne. by apply indexes_inj.
Qed.

End GridCalls.

(** C7. Set/get coherence of the grid: when [set p a] succeeds, [get p]
    returns [a]; a second [set p b] on the same point returns false and
    leaves the grid as it was, so [get p] still returns [a]. *)
Theorem set_get_coherence (g : RawBoard.t) (p : Point.t) (a b : Stone) :
  wf_grid g ->
  snd (RawBoard.set g p a) = true ->
  let g1 := fst (RawBoard.set g p a) in
  RawBoard.get g1 p = Some a /\
  RawBoard.set g1 p b = (g1, false) /\
  RawBoard.get (fst (RawBoard.set g1 p b)) p = Some a.
Proof.
  intros Hg Hok g1.
  assert (Hempty : cell g (Point.indexes p) = None).
  { rewrite raw_set_result in Hok.
    destruct (cell g (Point.indexes p)); [discriminate | reflexivity]. }
  assert (Hget : RawBoard.get g1 p = Some a).
  { unfold g1. rewrite raw_get_cell. by apply cell_set_same. }
  assert (Hset : RawBoard.set g1 p b = (g1, false)).
  { apply raw_set_occupied. rewrite <- raw_get_cell, Hget. discriminate. }
  rewrite Hset. auto.
Qed.

Lemma set_get_coherence_witness :
  let g1 := fst (RawBoard.set RawBoard.new (Point.mk 3 (-7)) Black) in
  RawBoard.get g1 (Point.mk 3 (-7)) = Some Black /\
  RawBoard.set g1 (Point.mk 3 (-7)) White = (g1, false) /\
  RawBoard.get (fst (RawBoard.set g1 (Point.mk 3 (-7)) White)) (Point.mk 3 (-7))
  = Some Black.
Proof.
  apply set_get_coherence; [apply wf_grid_new | vm_compute; reflexivity].
Defined.

(** C8, as stated, fails: the point (32768, 0) is never set, yet it
    shares its slot with (128, 0); after [set (128, 0) Black] on an empty
    grid, [unset (32768, 0)] returns Black and takes that stone off. *)
Lemma unset_never_set_counterexample :
  let g := raw_perform_all [RawSet (Point.mk 128 0) Black] RawBoard.new in
  Forall (never_sets (Point.mk 32768 0)) [RawSet (Point.mk 128 0) Black] /\
  RawBoard.get g (Point.mk 128 0) = Some Black /\
  snd (RawBoard.unset g (Point.mk 32768 0)) = Some Black /\
  RawBoard.unset g (Point.mk 32768 0) <> (g, None) /\
  RawBoard.get (fst (RawBoard.unset g (Point.mk 32768 0))) (Point.mk 128 0)
  = None.
Proof.
  intros g. split; [repeat constructor; simpl; congruence|].
  assert (Hret : snd (RawBoard.unset g (Point.mk 32768 0)) = Some Black)
    by (vm_compute; reflexivity).
  split; [vm_compute; reflexivity|]. split; [exact Hret|].
  split; [|vm_compute; reflexivity].
  intros Heq. apply (f_equal snd) in Heq. rewrite Hret in Heq.
  cbn [snd] in Heq. discriminate Heq.
Qed.

(** C8, amended. Unset coherence of a grid built from an empty one by
    [set] and [unset] calls: [unset p] after a successful [set p m]
    returns [m], and [get p] is then empty; [unset p] returns empty and
    leaves the grid as it was when [p] lies in the supported range, every
    point that was set lies in the supported range and [p] was never
    set; more generally when no [set] addressed the slot of [p]; and when
    the chunk of [p] was never created. *)
Theorem unset_coherence_supported (cs : list raw_call) (p : Point.t)
    (m : Stone) :
  let g := raw_perform_all cs RawBoard.new in
  (snd (RawBoard.set g p m) = true ->
   let g1 := fst (RawBoard.set g p m) in
   snd (RawBoard.unset g1 p) = Some m /\
   RawBoard.get (fst (RawBoard.unset g1 p)) p = None) /\
  (in_range p -> Forall sets_in_range cs -> Forall (never_sets p) cs ->
   RawBoard.get g p = None /\ RawBoard.unset g p = (g, None)) /\
  (Forall (leaves_slot (Point.indexes p)) cs ->
   RawBoard.get g p = None /\ RawBoard.unset g p = (g, None)) /\
  (RawBoard.chunk g (fst (fst (Point.indexes p))) = None ->
   RawBoard.get g p = None /\ RawBoard.unset g p = (g, None)).
Proof.
  intros g.
  assert (Hg : wf_grid g) by apply wf_raw_perform_all, wf_grid_new.
  split; [|split; [|split]].
  - intros Hok g1.
    assert (Hempty : cell g (Point.indexes p) = None).
    { rewrite raw_set_result in Hok.
      destruct (cell g (Point.indexes p)); [discriminate | reflexivity]. }
    split.
    + rewrite raw_unset_result. unfold g1. by apply cell_set_same.
    + rewrite raw_get_cell. apply cell_unset_same. by apply wf_raw_set.
  - intros Hp Hrange Hnever. apply unset_never_set.
    clear g Hg. induction cs as [|c cs IH]; [constructor|].
    apply Forall_cons in Hrange as [Hc Hrange].
    apply Forall_cons in Hnever as [Hn Hnever].
    constructor; [|by apply IH].
    destruct c as [q s | q]; [|exact I].
    by apply leaves_slot_in_range.
  - apply unset_never_set.
  - intros Hchunk.
    assert (Hnone : cell g (Point.indexes p) = None).
    { unfold cell. unfold RawBoard.chunk in Hchunk. by rewrite Hchunk. }
    split; [by rewrite raw_get_cell | by apply raw_unset_empty].
Qed.

Lemma unset_coherence_supported_witness :
  let g := raw_perform_all
             [RawSet (Point.mk 2 3) White; RawSet (Point.mk (-5) 7) Black;
              RawUnset (Point.mk 2 3); RawSet (Point.mk 128 0) White]
             RawBoard.new in
  (let g1 := fst (RawBoard.set g (Point.mk 1 1) Black) in
   snd (RawBoard.unset g1 (Point.mk 1 1)) = Some Black /\
   RawBoard.get (fst (RawBoard.unset g1 (Point.mk 1 1))) (Point.mk 1 1)
   = None) /\
  RawBoard.get g (Point.mk 1 1) = None /\
  RawBoard.unset g (Point.mk 1 1) = (g, None).
Proof.
  intros g.
  destruct (unset_coherence_supported
              [RawSet (Point.mk 2 3) White; RawSet (Point.mk (-5) 7) Black;
               RawUnset (Point.mk 2 3); RawSet (Point.mk 128 0) White]
              (Point.mk 1 1) Black) as (Hset & Hnever & _).
  split.
  - apply Hset. vm_compute. reflexivity.
  - apply Hnever.
    + unfold in_range. simpl. lia.
    + repeat constructor; unfold in_range; simpl; lia.
    + repeat constructor; simpl; congruence.
Defined.

(** ** The board: single calls *)

Section BoardCalls.

Lemma board_eta b :
  Board.mk (Board.board b) (Board.record b) (Board._index b) = b.
Proof. destruct b. reflexivity. Qed.

Lemma length_nonneg (l : list Board.entry) : 0 <= Board.length l.
Proof. unfold Board.length. lia. Qed.

Lemma entry_at_Some (l : list Board.entry) i :
  0 <= i < Board.length l -> exists e, Board.entry_at l i = Some e.
Proof.
  intros Hi. unfold Board.entry_at, Board.length in *.
  destruct (Z.ltb_spec i 0); [lia|].
  apply lookup_lt_is_Some. lia.
Qed.

Lemma entry_at_None (l : list Board.entry) i :
  i < 0 \/ Board.length l <= i -> Board.entry_at l i = None.
Proof.
  intros Hi. unfold Board.entry_at, Board.length in *.
  destruct (Z.ltb_spec i 0); [reflexivity|].
  apply lookup_ge_None. lia.
Qed.

Lemma entry_at_lookup (l : list Board.entry) i e :
  Board.entry_at l i = Some e -> 0 <= i /\ l !! Z.to_nat i = Some e.
Proof.
  unfold Board.entry_at. destruct (Z.ltb_spec i 0); [discriminate|].
  intros H1. split; [lia | exact H1].
Qed.

Lemma splice_in_range (l : list Board.entry) i :
  0 <= i <= Board.length l -> Board.splice l i = take (Z.to_nat i) l.
Proof.
  intros Hi. unfold Board.splice, Board.clamp_index.
  destruct (Z.ltb_spec i 0); [lia|]. rewrite Z.min_l by lia. reflexivity.
Qed.

Lemma past_record_in_range b :
  cursor_ok b ->
  Board.past_record b = take (Z.to_nat (Board._index b)) (Board.record b).
Proof.
  intros Hi. unfold Board.past_record, Board.slice0, Board.clamp_index.
  destruct (Z.ltb_spec (Board._index b) 0); [unfold cursor_ok in Hi; lia|].
  unfold cursor_ok in Hi. rewrite Z.min_l by lia. reflexivity.
Qed.

(** What [Board.set] does when the slot is free, and when it is not. *)
Lemma board_set_free b p s :
  Board.get b p = None ->
  Board.set b p s
  = (true,
     Board.mk (fst (RawBoard.set (Board.board b) p s))
       (Board.splice (Board.record b) (Board._index b) ++ [(p, s)])
       (Board._index b + 1)).
Proof.
  unfold Board.get. rewrite raw_get_cell. intros Hfree. unfold Board.set.
  pose proof (raw_set_result (Board.board b) p s) as Hres.
  rewrite Hfree in Hres.
  destruct (RawBoard.set (Board.board b) p s) as [g ok]. simpl in *.
  subst ok. reflexivity.
Qed.

Lemma board_set_taken b p s :
  Board.get b p <> None -> Board.set b p s = (false, b).
Proof.
  unfold Board.get. rewrite raw_get_cell. intros Htaken. unfold Board.set.
  rewrite raw_set_occupied by assumption. simpl. by rewrite board_eta.
Qed.

Lemma board_set_true b p s b' :
  Board.set b p s = (true, b') -> Board.get b p = None.
Proof.
  intros Hset. destruct (Board.get b p) eqn:Hget; [|reflexivity].
  rewrite board_set_taken in Hset by congruence. discriminate.
Qed.

Lemma board_unset_step b :
  0 < Board._index b <= Board.length (Board.record b) ->
  exists e,
    Board.entry_at (Board.record b) (Board._index b - 1) = Some e /\
    Board.unset b
    = Ok (Some e)
        (Board.mk (fst (RawBoard.unset (Board.board b) (fst e)))
           (Board.record b) (Board._index b - 1)).
Proof.
  intros Hi.
  destruct (entry_at_Some (Board.record b) (Board._index b - 1)) as [e He]; [lia|].
  exists e. split; [exact He|]. unfold Board.unset.
  destruct (Z.eqb_spec (Board._index b) 0); [lia|]. cbv zeta. simpl.
  rewrite He. destruct (RawBoard.unset (Board.board b) (fst e)). reflexivity.
Qed.

Lemma board_reset_step b :
  0 <= Board._index b < Board.length (Board.record b) ->
  exists e,
    Board.entry_at (Board.record b) (Board._index b) = Some e /\
    Board.reset b
    = Ok (Some e)
        (Board.mk (fst (RawBoard.set (Board.board b) (fst e) (snd e)))
           (Board.record b) (Board._index b + 1)).
Proof.
  intros Hi.
  destruct (entry_at_Some (Board.record b) (Board._index b)) as [e He]; [lia|].
  exists e. split; [exact He|]. unfold Board.reset.
  destruct (Z.leb_spec (Board.length (Board.record b)) (Board._index b)); [lia|].
  cbv zeta. simpl. rewrite He.
  destruct (RawBoard.set (Board.board b) (fst e) (snd e)). reflexivity.
Qed.

End BoardCalls.

(** C6. A commit on an occupied point fails and changes nothing:
    [Board.set] returns false and the board (grid, record and cursor) is
    the one before the call. *)
Theorem set_occupied_unchanged (b : Board.t) (p : Point.t) (s : Stone) :
  Board.get b p <> None -> Board.set b p s = (false, b).
Proof. apply board_set_taken. Qed.

Lemma set_occupied_unchanged_witness :
  let b := snd (Board.set Board.new (Point.mk 0 0) Black) in
  Board.set b (Point.mk 0 0) White = (false, b).
Proof. apply set_occupied_unchanged. vm_compute. discriminate. Defined.



(** C4. Turn inference.  With the cursor at 0 the next stone is Black
    and starts a turn.  With the cursor at 1 the next stone is White,
    and it starts a turn exactly when the recorded move was White's.
    From 2 on, with [last] the stone before the cursor and [prev] the
    one before it: equal stones give the opposite stone, not starting a
    turn; different stones give [last], starting a turn. *)
Theorem infer_turn_spec (b : Board.t) :
  cursor_ok b ->
  (Board._index b = 0 ->
   Board.infer_turn b = Ok (Stone_to_Z Black, true) b) /\
  (Board._index b = 1 ->
   exists e,
     Board.entry_at (Board.record b) 0 = Some e /\
     Board.infer_turn b
     = Ok (Stone_to_Z White, bool_decide (snd e = White)) b) /\
  (2 <= Board._index b ->
   exists last prev,
     Board.entry_at (Board.record b) (Board._index b - 1) = Some last /\
     Board.entry_at (Board.record b) (Board._index b - 2) = Some prev /\
     Board.infer_turn b
     = if decide (snd last = snd prev)
       then Ok (Stone_to_Z (opposite (snd last)), false) b
       else Ok (Stone_to_Z (snd last), true) b).
Proof.
  intros Hc. unfold cursor_ok in Hc. split; [|split].
  - intros H0. unfold Board.infer_turn. rewrite H0. reflexivity.
  - intros H1.
    destruct (entry_at_Some (Board.record b) 0) as [e He]; [lia|].
    exists e. split; [exact He|].
    unfold Board.infer_turn. rewrite H1.
    change (1 - 1) with 0. change (1 =? 0) with false. cbv iota.
    rewrite He. destruct e as [p []]; reflexivity.
  - intros H2.
    destruct (entry_at_Some (Board.record b) (Board._index b - 1))
      as [last Hlast]; [lia|].
    destruct (entry_at_Some (Board.record b) (Board._index b - 2))
      as [prev Hprev]; [lia|].
    exists last, prev. split; [exact Hlast|]. split; [exact Hprev|].
    unfold Board.infer_turn.
    destruct (Z.eqb_spec (Board._index b) 0); [lia|].
    rewrite Hlast.
    destruct (Z.eqb_spec (Board._index b) 1); [lia|].
    rewrite Hprev.
    destruct last as [p1 []], prev as [p2 []]; reflexivity.
Qed.

Lemma infer_turn_spec_witness :
  let b := snd (Board.set (snd (Board.set Board.new (Point.mk 0 0) White))
                  (Point.mk 0 1) White) in
  exists last prev,
    Board.entry_at (Board.record b) (Board._index b - 1) = Some last /\
    Board.entry_at (Board.record b) (Board._index b - 2) = Some prev /\
    Board.infer_turn b
    = if decide (snd last = snd prev)
      then Ok (Stone_to_Z (opposite (snd last)), false) b
      else Ok (Stone_to_Z (snd last), true) b.
Proof.
  intros b. apply (infer_turn_spec b).
  - unfold cursor_ok. vm_compute. split; discriminate.
  - vm_compute. discriminate.
Defined.

(** ** Jumping and walking *)

Section Jump.

Lemma jump_forward_walk n : forall record i g,
  0 <= i -> i + Z.of_nat n <= Board.length record ->
  exists g',
    Board.jump_forward n i record g = Ok tt g' /\
    repeat_call n Board.reset (Board.mk g record i)
    = Ok tt (Board.mk g' record (i + Z.of_nat n)).
Proof.
  induction n as [|n IH]; intros record i g Hi Hn.
  - exists g. simpl. change (Z.of_nat 0) with 0. rewrite Z.add_0_r. auto.
  - destruct (board_reset_step (Board.mk g record i)) as (e & He & Hstep);
      [simpl; lia|].
    simpl in He, Hstep.
    destruct (IH record (i + 1) (fst (RawBoard.set g (fst e) (snd e))))
      as (g' & Hjump & Hwalk); [lia | lia |].
    exists g'. split.
    + simpl. rewrite He.
      destruct (RawBoard.set g (fst e) (snd e)) as [g1 ok]. exact Hjump.
    + simpl repeat_call. rewrite Hstep. simpl bind. rewrite Hwalk.
      f_equal. f_equal. lia.
Qed.

Lemma jump_backward_walk n : forall record c g,
  Z.of_nat n <= c <= Board.length record ->
  exists g',
    Board.jump_backward n (c - 1) record g = Ok tt g' /\
    repeat_call n Board.unset (Board.mk g record c)
    = Ok tt (Board.mk g' record (c - Z.of_nat n)).
Proof.
  induction n as [|n IH]; intros record c g Hc.
  - exists g. simpl. change (Z.of_nat 0) with 0. rewrite Z.sub_0_r. auto.
  - destruct (board_unset_step (Board.mk g record c)) as (e & He & Hstep);
      [simpl; lia|].
    simpl in He, Hstep.
    destruct (IH record (c - 1) (fst (RawBoard.unset g (fst e))))
      as (g' & Hjump & Hwalk); [lia|].
    exists g'. split.
    + simpl. rewrite He.
      destruct (RawBoard.unset g (fst e)) as [g1 old]. exact Hjump.
    + simpl repeat_call. rewrite Hstep. simpl bind. rewrite Hwalk.
      f_equal. f_equal. lia.
Qed.

(** A jump inside the record returns, and ends in the state that single
    steps reach. *)
Lemma jump_is_walk b target :
  cursor_ok b -> 0 <= target <= Board.length (Board.record b) ->
  exists b',
    Board.jump target b = Ok tt b' /\ walk_to target b = Ok tt b' /\
    Board._index b' = target /\ Board.record b' = Board.record b.
Proof.
  intros Hc Ht. unfold cursor_ok in Hc. unfold Board.jump, walk_to.
  destruct (Z.ltb_spec (Board.length (Board.record b)) target); [lia|].
  destruct (Z.ltb_spec (Board._index b) target) as [Hfwd | Hbwd].
  - destruct (jump_forward_walk (Z.to_nat (target - Board._index b))
                (Board.record b) (Board._index b) (Board.board b))
      as (g' & Hjump & Hwalk); [lia | lia |].
    rewrite board_eta in Hwalk. rewrite Hjump, Hwalk.
    replace (Board._index b + Z.of_nat (Z.to_nat (target - Board._index b)))
      with target by lia.
    eexists. repeat split; reflexivity.
  - replace (Board._index b - 1 - target + 1)
      with (Board._index b - target) by lia.
    destruct (jump_backward_walk (Z.to_nat (Board._index b - target))
                (Board.record b) (Board._index b) (Board.board b))
      as (g' & Hjump & Hwalk); [lia|].
    rewrite board_eta in Hwalk. rewrite Hjump, Hwalk.
    replace (Board._index b - Z.of_nat (Z.to_nat (Board._index b - target)))
      with target by lia.
    eexists. repeat split; reflexivity.
Qed.

(** A jump past the end of the record does nothing. *)
Lemma jump_past_end b target :
  Board.length (Board.record b) < target -> Board.jump target b = Ok tt b.
Proof.
  intros Ht. unfold Board.jump.
  destruct (Z.ltb_spec (Board.length (Board.record b)) target); [reflexivity | lia].
Qed.

(** The backward loop throws once it reaches index -1. *)
Lemma jump_backward_throws n : forall record c g,
  c < Z.of_nat n -> 0 <= c <= Board.length record ->
  exists g', Board.jump_backward n (c - 1) record g = Throw TypeError g'.
Proof.
  induction n as [|n IH]; intros record c g Hn Hc; [lia|].
  simpl. destruct (Z.eq_dec c 0) as [-> | Hpos].
  - rewrite entry_at_None by lia. eauto.
  - destruct (entry_at_Some record (c - 1)) as [e He]; [lia|]. rewrite He.
    destruct (RawBoard.unset g (fst e)) as [g1 old].
    apply IH; lia.
Qed.

(** A jump to a negative index throws a [TypeError] and leaves the
    cursor where it was. *)
Lemma jump_negative b target :
  cursor_ok b -> target < 0 ->
  exists g',
    Board.jump target b
    = Throw TypeError (Board.mk g' (Board.record b) (Board._index b)).
Proof.
  intros Hc Ht. unfold cursor_ok in Hc. unfold Board.jump.
  destruct (Z.ltb_spec (Board.length (Board.record b)) target); [lia|].
  destruct (Z.ltb_spec (Board._index b) target); [lia|].
  destruct (jump_backward_throws (Z.to_nat (Board._index b - 1 - target + 1))
              (Board.record b) (Board._index b) (Board.board b))
    as [g' Hthrow]; [lia | lia |].
  rewrite Hthrow. eauto.
Qed.

Lemma unset_at_start b :
  Board._index b = 0 -> Board.unset b = Ok None b.
Proof. intros H0. unfold Board.unset. rewrite H0. reflexivity. Qed.

Lemma reset_at_end b :
  Board.length (Board.record b) <= Board._index b -> Board.reset b = Ok None b.
Proof.
  intros He. unfold Board.reset.
  destruct (Z.leb_spec (Board.length (Board.record b)) (Board._index b));
    [reflexivity | lia].
Qed.

End Jump.

(** C3. Jump equivalence: on a board whose cursor lies within the
    record, [jump T] with [0 <= T <= record length] returns, and so do
    the [|T - cursor|] single [reset] or [unset] calls; both end with
    the same stone at every point and with the cursor at [T] (the two
    boards are in fact equal). *)
Theorem jump_equiv (b : Board.t) (T : Z) :
  cursor_ok b ->
  0 <= T <= Board.length (Board.record b) ->
  exists bj bw,
    Board.jump T b = Ok tt bj /\
    walk_to T b = Ok tt bw /\
    (forall p, Board.get bj p = Board.get bw p) /\
    Board._index bj = Board._index bw /\
    Board._index bj = T /\
    bj = bw.
Proof.
  intros Hc Ht.
  destruct (jump_is_walk b T Hc Ht) as (b' & Hjump & Hwalk & Hidx & _).
  exists b', b'. repeat split; auto.
Qed.

Lemma jump_equiv_witness :
  let b := snd (Board.set (snd (Board.set (snd (Board.set Board.new
             (Point.mk 0 0) Black)) (Point.mk 5 (-2)) White))
             (Point.mk (-40) 17) White) in
  exists bj bw,
    Board.jump 1 b = Ok tt bj /\
    walk_to 1 b = Ok tt bw /\
    (forall p, Board.get bj p = Board.get bw p) /\
    Board._index bj = Board._index bw /\
    Board._index bj = 1 /\
    bj = bw.
Proof.
  intros b. apply (jump_equiv b 1).
  - unfold cursor_ok. vm_compute. split; discriminate.
  - vm_compute. split; discriminate.
Defined.

(** C9, at the input where it fails: [jump(-1)] on a new board throws a
    [TypeError]; on a board with one stone it first takes the stone off
    the grid and then throws, leaving the cursor at 1. *)
Theorem jump_minus_one_throws :
  Board.jump (-1) Board.new = Throw TypeError Board.new /\
  let b := snd (Board.set Board.new (Point.mk 0 0) Black) in
  exists b',
    Board.jump (-1) b = Throw TypeError b' /\
    Board._index b' = 1 /\
    Board.record b' = [(Point.mk 0 0, Black)] /\
    Board.get b' (Point.mk 0 0) = None.
Proof.
  split; [reflexivity|]. intros b.
  destruct (Board.jump (-1) b) as [u b'|e b'] eqn:Hjump.
  - vm_compute in Hjump. discriminate.
  - exists b'. destruct e. split; [reflexivity|].
    vm_compute in Hjump. injection Hjump as <-. vm_compute. auto.
Qed.

(** ** The record and the grid *)

Section History.

Lemma lookup_key_app l1 l2 k :
  lookup_key (l1 ++ l2) k
  = match lookup_key l1 k with
    | Some s => Some s
    | None => lookup_key l2 k
    end.
Proof.
  induction l1 as [|e l1 IH]; simpl; [reflexivity|].
  destruct (decide (Point.indexes (fst e) = k)); [reflexivity | exact IH].
Qed.

Lemma lookup_key_None l k : lookup_key l k = None <-> k ∉ keys l.
Proof.
  induction l as [|e l IH]; simpl.
  - split; [intros _; apply not_elem_of_nil | reflexivity].
  - rewrite not_elem_of_cons.
    destruct (decide (Point.indexes (fst e) = k)) as [Heq | Hne].
    + split; [discriminate | intros [Hk _]; congruence].
    + rewrite IH. split; [intros Hk; split; [congruence | exact Hk] | tauto].
Qed.

Lemma lookup_key_single e k :
  lookup_key [e] k
  = if decide (Point.indexes (fst e) = k) then Some (snd e) else None.
Proof. reflexivity. Qed.

Lemma keys_app l1 l2 : keys (l1 ++ l2) = keys l1 ++ keys l2.
Proof. apply map_app. Qed.

Lemma key_in_keys (l : list Board.entry) e :
  e ∈ l -> Point.indexes (fst e) ∈ keys l.
Proof.
  induction l as [|e' l IH]; intros Hin.
  - by apply not_elem_of_nil in Hin.
  - simpl. apply elem_of_cons. apply elem_of_cons in Hin as [-> | Hin];
      [left; reflexivity | right; by apply IH].
Qed.

(** In a record without two entries for one slot, the slot of an entry
    is not addressed by any earlier entry. *)
Lemma key_not_before (l : list Board.entry) n m e :
  NoDup (keys l) -> l !! m = Some e -> (n <= m)%nat ->
  Point.indexes (fst e) ∉ keys (take n l).
Proof.
  intros Hnd He Hnm Hin.
  rewrite <- (take_drop n l), keys_app in Hnd.
  apply NoDup_app in Hnd as (_ & Hdisj & _).
  apply (Hdisj _ Hin). apply key_in_keys.
  apply list_elem_of_lookup. exists (m - n)%nat.
  rewrite lookup_drop. replace (n + (m - n))%nat with m by lia. exact He.
Qed.

Lemma NoDup_keys_take (l : list Board.entry) n :
  NoDup (keys l) -> NoDup (keys (take n l)).
Proof.
  intros Hnd. unfold keys. rewrite <- firstn_map.
  eapply sublist_NoDup; [exact Hnd | apply sublist_take].
Qed.

(** Replaying entries onto a grid: a slot keeps what it held, and an
    empty slot receives the first entry that addresses it. *)
Lemma cell_fold_set l : forall g k,
  wf_grid g -> valid_key k ->
  cell (fold_left (fun g e => fst (RawBoard.set g (fst e) (snd e))) l g) k
  = match cell g k with
    | Some s => Some s
    | None => lookup_key l k
    end.
Proof.
  induction l as [|e l IH]; intros g k Hg Hk; simpl.
  - destruct (cell g k); reflexivity.
  - rewrite IH by auto with c6.
    destruct (decide (Point.indexes (fst e) = k)) as [<- | Hne].
    + destruct (cell g (Point.indexes (fst e))) as [s|] eqn:Hcell.
      * rewrite raw_set_occupied by congruence. simpl. by rewrite Hcell.
      * rewrite cell_set_same by assumption. reflexivity.
    + rewrite cell_set_other by (assumption || congruence). reflexivity.
Qed.

Lemma cell_replay l k : valid_key k -> cell (replay l) k = lookup_key l k.
Proof.
  intros Hk. unfold replay.
  rewrite cell_fold_set by auto with c6.
  by rewrite cell_new.
Qed.

Lemma board_inv_new : board_inv Board.new.
Proof.
  split; [apply wf_grid_new|]. split; [|split].
  - unfold cursor_ok, Board.new, Board.length. simpl. lia.
  - simpl. constructor.
  - intros k Hk. simpl. apply cell_new.
Qed.

Lemma take_succ_entry (l : list Board.entry) i e :
  Board.entry_at l i = Some e ->
  take (Z.to_nat (i + 1)) l = take (Z.to_nat i) l ++ [e].
Proof.
  intros He. apply entry_at_lookup in He as [Hi He].
  replace (Z.to_nat (i + 1)) with (S (Z.to_nat i)) by lia.
  by apply take_S_r.
Qed.

Lemma board_inv_set b p s : board_inv b -> board_inv (snd (Board.set b p s)).
Proof.
  intros (Hwf & Hc & Hnd & Hcells).
  destruct (Board.get b p) as [old|] eqn:Hget.
  - rewrite board_set_taken by congruence. simpl.
    exact (conj Hwf (conj Hc (conj Hnd Hcells))).
  - rewrite board_set_free by assumption. simpl snd.
    assert (Hfree : cell (Board.board b) (Point.indexes p) = None).
    { unfold Board.get in Hget. by rewrite raw_get_cell in Hget. }
    assert (Hfresh : Point.indexes p
                     ∉ keys (take (Z.to_nat (Board._index b)) (Board.record b))).
    { apply lookup_key_None. rewrite <- Hcells by apply indexes_valid.
      exact Hfree. }
    unfold cursor_ok in Hc. rewrite splice_in_range by exact Hc.
    assert (Hlen : List.length (take (Z.to_nat (Board._index b)) (Board.record b))
                   = Z.to_nat (Board._index b)).
    { rewrite length_take. unfold Board.length in Hc. lia. }
    split; [simpl; solve [auto with c6]|]. split; [|split].
    + unfold cursor_ok, Board.length. simpl.
      rewrite length_app, Hlen. simpl. lia.
    + simpl. rewrite keys_app. apply NoDup_app.
      split; [by apply NoDup_keys_take|]. split.
      * intros k Hk Hk'. simpl in Hk'. apply list_elem_of_singleton in Hk'.
        subst k. contradiction.
      * simpl. apply NoDup_singleton.
    + intros k Hk. simpl.
      rewrite take_ge by (rewrite length_app, Hlen; simpl; lia).
      rewrite lookup_key_app, lookup_key_single. simpl fst. simpl snd.
      destruct (decide (Point.indexes p = k)) as [<- | Hne].
      * rewrite cell_set_same by assumption.
        apply lookup_key_None in Hfresh. by rewrite Hfresh.
      * rewrite cell_set_other by (assumption || congruence).
        rewrite Hcells by assumption.
        destruct (lookup_key _ k); reflexivity.
Qed.

Lemma board_inv_unset b r b' :
  board_inv b -> Board.unset b = Ok r b' -> board_inv b'.
Proof.
  intros (Hwf & Hc & Hnd & Hcells) Hun. unfold cursor_ok in Hc.
  destruct (Z.eq_dec (Board._index b) 0) as [H0 | Hpos].
  - rewrite unset_at_start in Hun by assumption. injection Hun as _ <-.
    exact (conj Hwf (conj Hc (conj Hnd Hcells))).
  - destruct (board_unset_step b) as (e & He & Hstep); [lia|].
    rewrite Hstep in Hun. injection Hun as _ <-.
    pose proof (take_succ_entry _ _ _ He) as Htake.
    replace (Board._index b - 1 + 1) with (Board._index b) in Htake by lia.
    pose proof He as He'. apply entry_at_lookup in He' as [_ He'].
    assert (Hfresh : Point.indexes (fst e)
               ∉ keys (take (Z.to_nat (Board._index b - 1)) (Board.record b))).
    { eapply key_not_before; [exact Hnd | exact He' | lia]. }
    split; [simpl; solve [auto with c6]|]. split; [|split].
    + unfold cursor_ok. simpl. lia.
    + exact Hnd.
    + intros k Hk. simpl.
      destruct (decide (Point.indexes (fst e) = k)) as [<- | Hne].
      * rewrite cell_unset_same by assumption.
        symmetry. by apply lookup_key_None.
      * rewrite cell_unset_other by (assumption || congruence).
        rewrite Hcells, Htake by assumption.
        rewrite lookup_key_app, lookup_key_single.
        destruct (decide (Point.indexes (fst e) = k)); [contradiction|].
        destruct (lookup_key _ k); reflexivity.
Qed.

Lemma board_inv_reset b r b' :
  board_inv b -> Board.reset b = Ok r b' -> board_inv b'.
Proof.
  intros (Hwf & Hc & Hnd & Hcells) Hre. unfold cursor_ok in Hc.
  destruct (Z.le_gt_cases (Board.length (Board.record b)) (Board._index b))
    as [Hend | Hin].
  - rewrite reset_at_end in Hre by assumption. injection Hre as _ <-.
    exact (conj Hwf (conj Hc (conj Hnd Hcells))).
  - destruct (board_reset_step b) as (e & He & Hstep); [lia|].
    rewrite Hstep in Hre. injection Hre as _ <-.
    pose proof (take_succ_entry _ _ _ He) as Htake.
    pose proof He as He'. apply entry_at_lookup in He' as [_ He'].
    assert (Hfresh : Point.indexes (fst e)
               ∉ keys (take (Z.to_nat (Board._index b)) (Board.record b))).
    { eapply key_not_before; [exact Hnd | exact He' | lia]. }
    assert (Hfree : cell (Board.board b) (Point.indexes (fst e)) = None).
    { rewrite Hcells by apply indexes_valid. by apply lookup_key_None. }
    split; [simpl; solve [auto with c6]|]. split; [|split].
    + unfold cursor_ok. simpl. lia.
    + exact Hnd.
    + intros k Hk. simpl. rewrite Htake.
      rewrite lookup_key_app, lookup_key_single.
      destruct (decide (Point.indexes (fst e) = k)) as [<- | Hne].
      * rewrite cell_set_same by assumption.
        apply lookup_key_None in Hfresh. by rewrite Hfresh.
      * rewrite cell_set_other by (assumption || congruence).
        rewrite Hcells by assumption.
        destruct (lookup_key _ k); reflexivity.
Qed.

Lemma board_inv_repeat {A} (step : Board.t -> outcome Board.t A) n :
  (forall b r b', board_inv b -> step b = Ok r b' -> board_inv b') ->
  forall b b', board_inv b -> repeat_call n step b = Ok tt b' -> board_inv b'.
Proof.
  intros Hstep. induction n as [|n IH]; intros b b' Hinv Hrun; simpl in Hrun.
  - injection Hrun as <-. exact Hinv.
  - destruct (step b) as [r b1|e b1] eqn:Hb; simpl in Hrun; [|discriminate].
    eapply IH; [|exact Hrun]. eapply Hstep; eassumption.
Qed.

Lemma board_inv_jump b target b' :
  board_inv b -> Board.jump target b = Ok tt b' -> board_inv b'.
Proof.
  intros Hinv Hjump. pose proof Hinv as (_ & Hc & _).
  destruct (Z.lt_ge_cases (Board.length (Board.record b)) target) as [Hpast | Hle].
  - rewrite jump_past_end in Hjump by assumption. by injection Hjump as <-.
  - destruct (Z.lt_ge_cases target 0) as [Hneg | Hnn].
    + destruct (jump_negative b target Hc Hneg) as [g' Hthrow].
      rewrite Hthrow in Hjump. discriminate.
    + destruct (jump_is_walk b target Hc ltac:(lia)) as (b1 & Hj & Hw & _).
      rewrite Hj in Hjump. injection Hjump as <-.
      unfold walk_to in Hw.
      destruct (Board._index b <? target).
      * eapply board_inv_repeat; [apply board_inv_reset | exact Hinv | exact Hw].
      * eapply board_inv_repeat; [apply board_inv_unset | exact Hinv | exact Hw].
Qed.

Lemma board_inv_perform c b b' :
  board_inv b -> perform c b = Ok tt b' -> board_inv b'.
Proof.
  intros Hinv Hp. destruct c as [p s| | |i]; simpl in Hp.
  - injection Hp as <-. by apply board_inv_set.
  - destruct (Board.unset b) as [r b1|e b1] eqn:Hb; simpl in Hp; [|discriminate].
    injection Hp as <-. eapply board_inv_unset; eassumption.
  - destruct (Board.reset b) as [r b1|e b1] eqn:Hb; simpl in Hp; [|discriminate].
    injection Hp as <-. eapply board_inv_reset; eassumption.
  - eapply board_inv_jump; eassumption.
Qed.

Lemma board_inv_perform_all cs : forall b b',
  board_inv b -> perform_all cs b = Ok tt b' -> board_inv b'.
Proof.
  induction cs as [|c cs IH]; intros b b' Hinv Hrun; simpl in Hrun.
  - by injection Hrun as <-.
  - destruct (perform c b) as [[] b1|e b1] eqn:Hb; simpl in Hrun; [|discriminate].
    eapply IH; [|exact Hrun]. eapply board_inv_perform; eassumption.
Qed.

(** Only a jump to a negative index keeps a sequence of calls from
    running to its end. *)
Lemma perform_returns c b :
  board_inv b ->
  match c with CallJump index => 0 <= index | _ => True end ->
  exists b', perform c b = Ok tt b'.
Proof.
  intros (Hwf & Hc & _) Hcall. pose proof Hc as Hc'. unfold cursor_ok in Hc'.
  destruct c as [p s| | |i]; simpl.
  - eauto.
  - destruct (Z.eq_dec (Board._index b) 0) as [H0 | Hpos].
    + rewrite unset_at_start by assumption. simpl. eauto.
    + destruct (board_unset_step b) as (e & _ & Hstep); [lia|].
      rewrite Hstep. simpl. eauto.
  - destruct (Z.le_gt_cases (Board.length (Board.record b)) (Board._index b)).
    + rewrite reset_at_end by assumption. simpl. eauto.
    + destruct (board_reset_step b) as (e & _ & Hstep); [lia|].
      rewrite Hstep. simpl. eauto.
  - destruct (Z.lt_ge_cases (Board.length (Board.record b)) i).
    + rewrite jump_past_end by assumption. eauto.
    + destruct (jump_is_walk b i Hc ltac:(lia)) as (b1 & Hj & _). eauto.
Qed.

Lemma perform_all_returns cs : forall b,
  board_inv b ->
  Forall (fun c => match c with CallJump index => 0 <= index | _ => True end) cs ->
  exists b', perform_all cs b = Ok tt b'.
Proof.
  induction cs as [|c cs IH]; intros b Hinv Hall; simpl; [eauto|].
  apply Forall_cons in Hall as [Hc Hcs].
  destruct (perform_returns c b Hinv Hc) as [b1 Hb1]. rewrite Hb1. simpl.
  apply IH; [|exact Hcs]. eapply board_inv_perform; eassumption.
Qed.

End History.

(** X13. The invariant behind C2, for the call sequences that run to
    their end: the grid holds at every point what replaying the record entries
    before the cursor onto an empty grid gives, and the points of the
    entries at or beyond the cursor are empty in the grid. *)
Lemma replay_invariant_when_calls_return (cs : list call) (b : Board.t) :
  perform_all cs Board.new = Ok tt b ->
  (forall p,
     Board.get b p = RawBoard.get (replay (Board.past_record b)) p) /\
  (forall i e,
     Board._index b <= i ->
     Board.entry_at (Board.record b) i = Some e ->
     Board.get b (fst e) = None).
Proof.
  intros Hrun.
  pose proof (board_inv_perform_all cs _ _ board_inv_new Hrun)
    as (Hwf & Hc & Hnd & Hcells).
  split.
  - intros p. unfold Board.get. rewrite !raw_get_cell.
    rewrite past_record_in_range by exact Hc.
    rewrite cell_replay by apply indexes_valid.
    apply Hcells, indexes_valid.
  - intros i e Hi He. unfold Board.get. rewrite raw_get_cell.
    rewrite Hcells by apply indexes_valid.
    apply lookup_key_None. apply entry_at_lookup in He as [Hi0 He].
    unfold cursor_ok in Hc.
    eapply key_not_before; [exact Hnd | exact He | lia].
Qed.

Lemma replay_invariant_when_calls_return_witness :
  let b := final_board (perform_all sample_calls Board.new) in
  (forall p,
     Board.get b p = RawBoard.get (replay (Board.past_record b)) p) /\
  (forall i e,
     Board._index b <= i ->
     Board.entry_at (Board.record b) i = Some e ->
     Board.get b (fst e) = None).
Proof.
  intros b. apply (replay_invariant_when_calls_return sample_calls b).
  vm_compute. reflexivity.
Defined.

(** C2, at the input where it fails: after [set((0, 0), Black)] the call
    [jump(-1)] takes the stone off the grid and then throws, so the
    board it leaves has the cursor at 1 and nothing at (0, 0), while
    replaying the record entry before the cursor puts Black there. *)
Theorem jump_minus_one_breaks_replay :
  exists b',
    perform_all [CallSet (Point.mk 0 0) Black; CallJump (-1)] Board.new
    = Throw TypeError b' /\
    Board._index b' = 1 /\
    Board.past_record b' = [(Point.mk 0 0, Black)] /\
    Board.get b' (Point.mk 0 0) = None /\
    RawBoard.get (replay (Board.past_record b')) (Point.mk 0 0) = Some Black.
Proof.
  destruct (perform_all [CallSet (Point.mk 0 0) Black; CallJump (-1)] Board.new)
    as [u b'|e b'] eqn:Hrun.
  - vm_compute in Hrun. discriminate.
  - exists b'. destruct e. split; [reflexivity|].
    vm_compute in Hrun. injection Hrun as <-. vm_compute. auto.
Qed.

(** * Further properties of the code *)

(** ** The zigzag transform on all 32-bit integers *)

Section Zigzag.

Lemma to_int32_idem v : JS.to_int32 (JS.to_int32 v) = JS.to_int32 v.
Proof. apply to_int32_small, to_int32_range. Qed.

Lemma to_uint32_int32 v : JS.to_uint32 (JS.to_int32 v) = JS.to_uint32 v.
Proof. apply to_int32_eqm. Qed.

Lemma zigzag_encode_int32 x :
  zigzag_encode (JS.to_int32 x) = zigzag_encode x.
Proof.
  unfold zigzag_encode, JS.shl, JS.sar. by rewrite to_int32_idem.
Qed.

Lemma zigzag_decode_uint32 z :
  zigzag_decode (JS.to_uint32 z) = zigzag_decode z.
Proof.
  unfold zigzag_decode, JS.shr, JS.and.
  by rewrite to_uint32_idem, to_int32_uint32.
Qed.

Lemma zigzag_encode_closed x :
  - 2 ^ 31 <= x < 2 ^ 31 ->
  zigzag_encode x = if x <? 0 then - 2 * x - 1 else 2 * x.
Proof.
  intros Hx. unfold zigzag_encode, JS.shr, JS.xor, JS.shl, JS.sar.
  rewrite !shift_count_small by lia.
  rewrite (to_int32_small x) by lia.
  rewrite Z.shiftr_0_r.
  rewrite Z.shiftl_mul_pow2, Z.shiftr_div_pow2 by lia.
  rewrite to_int32_idem. change (2 ^ 1) with 2.
  destruct (Z.ltb_spec x 0) as [Hneg | Hpos].
  - replace (x / 2 ^ 31) with (-1)
      by (apply Z.div_unique with (r := x + 2 ^ 31); lia).
    rewrite (to_int32_small (-1)) by lia.
    rewrite Z.lxor_m1_r. unfold Z.lnot, JS.to_uint32.
    replace (Z.pred (- JS.to_int32 (x * 2))) with (-1 - JS.to_int32 (x * 2))
      by lia.
    rewrite Zminus_mod, to_int32_eqm, <- Zminus_mod.
    rewrite Z.mod_small by lia. lia.
  - rewrite Z.div_small by lia. rewrite (to_int32_small 0) by lia.
    rewrite Z.lxor_0_r, to_uint32_int32.
    rewrite to_uint32_small by lia. lia.
Qed.

End Zigzag.

(** X1. On every signed 32-bit integer [zigzag_encode] is the zigzag
    map: a non-negative [x] goes to [2 x] and a negative one to
    [-2 x - 1]. *)
Theorem zigzag_encode_formula (x : Z) :
  - 2 ^ 31 <= x < 2 ^ 31 ->
  zigzag_encode x = (if x <? 0 then - 2 * x - 1 else 2 * x) /\
  0 <= zigzag_encode x < 2 ^ 32.
Proof.
  intros Hx. rewrite zigzag_encode_closed by exact Hx.
  destruct (Z.ltb_spec x 0); lia.
Qed.

Lemma zigzag_encode_formula_witness :
  zigzag_encode (- 2 ^ 31) = (if - 2 ^ 31 <? 0 then - 2 * - 2 ^ 31 - 1 else 2 * - 2 ^ 31) /\
  0 <= zigzag_encode (- 2 ^ 31) < 2 ^ 32.
Proof. apply zigzag_encode_formula. lia. Defined.

(** X2. Decoding a zigzag code gives back the number that was encoded,
    as a signed 32-bit integer: [zigzag_decode (zigzag_encode x)] is
    [ToInt32 x] for every integer [x], hence [x] itself on the whole
    signed 32-bit range. *)
Theorem zigzag_decode_encode (x : Z) :
  zigzag_decode (zigzag_encode x) = JS.to_int32 x.
Proof.
  rewrite <- zigzag_encode_int32.
  pose proof (to_int32_range x) as Hr. set (v := JS.to_int32 x) in *.
  rewrite zigzag_encode_closed by exact Hr.
  destruct (Z.ltb_spec v 0).
  - rewrite zigzag_decode_small by lia.
    replace (- 2 * v - 1) with (1 + 2 * (- v - 1)) by lia.
    rewrite Z.even_add_mul_2. simpl.
    replace (1 + 2 * (- v - 1)) with ((- v - 1) * 2 + 1) by lia.
    rewrite Z.div_add_l by lia. change (1 / 2) with 0. lia.
  - rewrite zigzag_decode_small by lia.
    rewrite Z.even_mul. simpl.
    replace (2 * v) with (v * 2) by lia. rewrite Z.div_mul by lia. reflexivity.
Qed.

Lemma zigzag_encode_decode_u32 (z : Z) :
  zigzag_encode (zigzag_decode z) = JS.to_uint32 z.
Proof.
  rewrite <- zigzag_decode_uint32.
  pose proof (to_uint32_range z) as Hr. set (u := JS.to_uint32 z) in *.
  rewrite zigzag_decode_small by exact Hr.
  assert (Hh : 0 <= u / 2 < 2 ^ 31).
  { split; [apply Z.div_pos; lia | apply Z.div_lt_upper_bound; lia]. }
  pose proof (Z.div_mod u 2 ltac:(lia)) as Hdm.
  pose proof (Zmod_even u) as Hev.
  destruct (Z.even u).
  - rewrite zigzag_encode_closed by lia.
    destruct (Z.ltb_spec (u / 2) 0); lia.
  - rewrite zigzag_encode_closed by lia.
    destruct (Z.ltb_spec (- (u / 2) - 1) 0); lia.
Qed.

(** X3. Encoding a decoded code gives the code back, as an unsigned
    32-bit integer: [zigzag_encode (zigzag_decode z)] is [ToUint32 z]
    for every integer [z], so the two functions are inverse bijections
    between the signed and the unsigned 32-bit integers. *)
Theorem zigzag_encode_decode (z : Z) :
  zigzag_encode (zigzag_decode z) = JS.to_uint32 z.
Proof.
  pose proof (zigzag_encode_decode_u32 z) as Hz.
  pose proof (to_uint32_range z) as Hr. rewrite Hz. reflexivity.
Qed.

(** ** The layout of an index *)

Section Layout.

Lemma scatter_bits_all : forall_bits 16 scatter_bits_ok 0 = true.
Proof. vm_compute. reflexivity. Qed.

(** [scatter] moves bit [k] of a 16-bit operand to position [2 k]. *)
Lemma scatter_bits a n :
  0 <= a < 2 ^ 16 -> 0 <= n < 32 ->
  Z.testbit (scatter a) n = Z.even n && Z.testbit a (n / 2).
Proof.
  intros Ha Hn. rewrite scatter_is_raw.
  pose proof (forall_uint16 scatter_bits_ok scatter_bits_all a Ha) as Hall.
  unfold scatter_bits_ok in Hall. cbv zeta in Hall.
  rewrite forallb_forall in Hall.
  apply Bool.eqb_prop, Hall, list_elem_of_In, elem_of_seqZ. lia.
Qed.

Lemma index_bit_even p k :
  in_range p -> 0 <= k < 16 ->
  Z.testbit (Point.index p) (2 * k) = Z.testbit (zigzag_encode (Point.x p)) k.
Proof.
  intros [Hx Hy] Hk. unfold Point.index, interleave. cbv zeta.
  destruct (zigzag_roundtrip (Point.x p) ltac:(lia)) as [Hax _].
  destruct (zigzag_roundtrip (Point.y p) ltac:(lia)) as [Hay _].
  rewrite testbit_or, testbit_shl by lia.
  rewrite !scatter_bits by (assumption || lia).
  rewrite Z.even_mul. simpl orb.
  replace (2 * k / 2) with k by (rewrite Z.mul_comm, Z.div_mul; lia).
  destruct (Z.leb_spec 1 (2 * k)); simpl; [|apply orb_false_r].
  rewrite scatter_bits by (assumption || lia).
  replace (Z.even (2 * k - 1)) with false
    by (rewrite Z.even_sub, Z.even_mul; reflexivity).
  apply orb_false_r.
Qed.

Lemma index_bit_odd p k :
  in_range p -> 0 <= k < 16 ->
  Z.testbit (Point.index p) (2 * k + 1)
  = Z.testbit (zigzag_encode (Point.y p)) k.
Proof.
  intros [Hx Hy] Hk. unfold Point.index, interleave. cbv zeta.
  destruct (zigzag_roundtrip (Point.x p) ltac:(lia)) as [Hax _].
  destruct (zigzag_roundtrip (Point.y p) ltac:(lia)) as [Hay _].
  rewrite testbit_or, testbit_shl by lia.
  rewrite !scatter_bits by (assumption || lia).
  replace (2 * k + 1 - 1) with (2 * k) by lia.
  replace (Z.even (2 * k + 1)) with false
    by (rewrite Z.even_add, Z.even_mul; reflexivity).
  rewrite Z.even_mul. simpl.
  replace (2 * k / 2) with k by (rewrite Z.mul_comm, Z.div_mul; lia).
  destruct (Z.leb_spec 1 (2 * k + 1)); [reflexivity | lia].
Qed.

(** The three parts of [Point.indexes], as quotients and remainders of
    the unsigned index. *)
Lemma indexes_split p :
  let u := JS.to_uint32 (Point.index p) in
  Point.indexes p = (u / 256, u / 16 mod 16, u mod 16).
Proof.
  intros u. unfold Point.indexes, extract_lo_bits. cbv zeta.
  change SLOT_INDEX_BITS with 4. change WORD_INDEX_BITS with 4.
  change (JS.shl 1 4 - 1) with (Z.ones 4).
  assert (Hlow : forall i, JS.and i (Z.ones 4) = JS.to_uint32 i mod 16).
  { intros i. unfold JS.and.
    rewrite (to_int32_small (Z.ones 4)) by (change (Z.ones 4) with 15; lia).
    rewrite Z.land_ones by lia. change (2 ^ 4) with 16.
    unfold JS.to_uint32. rewrite <- to_int32_eqm.
    symmetry. apply Z.mod_mod_divide. exists (2 ^ 28). reflexivity. }
  assert (Hshr : forall i, JS.shr i 4 = JS.to_uint32 i / 16).
  { intros i. unfold JS.shr. rewrite shift_count_small by lia.
    rewrite Z.shiftr_div_pow2 by lia. reflexivity. }
  rewrite !Hlow, !Hshr. fold u.
  pose proof (to_uint32_range (Point.index p)) as Hu. fold u in Hu.
  assert (Hq : 0 <= u / 16 < 2 ^ 32).
  { split; [apply Z.div_pos; lia | apply Z.div_lt_upper_bound; lia]. }
  rewrite (to_uint32_small (u / 16)) by exact Hq.
  rewrite Z.div_div by lia. reflexivity.
Qed.

End Layout.

(** X4. Distinct points of the supported range have distinct indices:
    [Point.index] is injective on the points with both coordinates in
    [-32768, 32767]. *)
Theorem index_injective (p q : Point.t) :
  in_range p -> in_range q -> p <> q -> Point.index p <> Point.index q.
Proof.
  intros Hp Hq Hne Heq. apply Hne.
  rewrite <- (codec_roundtrip p Hp), <- (codec_roundtrip q Hq).
  by rewrite Heq.
Qed.

Lemma index_injective_witness :
  Point.index (Point.mk (-3) 4) <> Point.index (Point.mk 4 (-3)).
Proof.
  apply index_injective; unfold in_range; simpl; try lia. discriminate.
Defined.

(** X5. [Point.indexes] splits the index, taken as an unsigned 32-bit
    integer, into a chunk number below 2^24, a word number below 16 and a
    slot number below 16, from which the index is
    [chunk * 256 + word * 16 + slot]. *)
Theorem indexes_recompose (p : Point.t) :
  let '(chunk_i, word_i, slot_i) := Point.indexes p in
  0 <= chunk_i < 2 ^ 24 /\ 0 <= word_i < 16 /\ 0 <= slot_i < 16 /\
  chunk_i * 256 + word_i * 16 + slot_i = JS.to_uint32 (Point.index p).
Proof.
  rewrite indexes_split. cbv zeta.
  pose proof (to_uint32_range (Point.index p)) as Hu.
  set (u := JS.to_uint32 (Point.index p)) in *.
  pose proof (Z.div_mod u 16 ltac:(lia)) as H1.
  pose proof (Z.div_mod (u / 16) 16 ltac:(lia)) as H2.
  pose proof (Z.mod_pos_bound u 16 ltac:(lia)) as H3.
  pose proof (Z.mod_pos_bound (u / 16) 16 ltac:(lia)) as H4.
  assert (H5 : u / 256 = u / 16 / 16) by (rewrite Z.div_div by lia; reflexivity).
  assert (H6 : 0 <= u / 256 < 2 ^ 24).
  { split; [apply Z.div_pos; lia | apply Z.div_lt_upper_bound; lia]. }
  lia.
Qed.

(** X6. Distinct points of the supported range never share a slot:
    [Point.indexes] is injective on the points with both coordinates in
    [-32768, 32767]. *)
Theorem indexes_injective (p q : Point.t) :
  in_range p -> in_range q -> p <> q -> Point.indexes p <> Point.indexes q.
Proof. intros Hp Hq Hne Heq. apply Hne. by apply indexes_inj. Qed.

Lemma indexes_injective_witness :
  Point.indexes (Point.mk 100 (-100)) <> Point.indexes (Point.mk (-100) 100).
Proof.
  apply indexes_injective; unfold in_range; simpl; try lia. discriminate.
Defined.

(** X7. The index interleaves the two zigzag codes bit by bit: for a
    point of the supported range, bit [2 k] of the index is bit [k] of
    the zigzag code of [x] and bit [2 k + 1] is bit [k] of the zigzag
    code of [y], for [k] from 0 to 15. *)
Theorem index_interleaves (p : Point.t) (k : Z) :
  in_range p -> 0 <= k < 16 ->
  Z.testbit (Point.index p) (2 * k) = Z.testbit (zigzag_encode (Point.x p)) k /\
  Z.testbit (Point.index p) (2 * k + 1)
  = Z.testbit (zigzag_encode (Point.y p)) k.
Proof.
  intros Hp Hk. split; [by apply index_bit_even | by apply index_bit_odd].
Qed.

Lemma index_interleaves_witness :
  Z.testbit (Point.index (Point.mk 5 (-9))) (2 * 3)
  = Z.testbit (zigzag_encode 5) 3 /\
  Z.testbit (Point.index (Point.mk 5 (-9))) (2 * 3 + 1)
  = Z.testbit (zigzag_encode (-9)) 3.
Proof.
  apply (index_interleaves (Point.mk 5 (-9)) 3); unfold in_range; simpl; lia.
Defined.

(** ** The points of a chunk *)

Section ChunkOfPoint.

Lemma testbit_high16 a n : 0 <= a < 2 ^ 16 -> 16 <= n -> Z.testbit a n = false.
Proof.
  intros Ha Hn. rewrite <- (Z.mod_small a (2 ^ 16)) by lia.
  apply Z.mod_pow2_bits_high. lia.
Qed.

(** The chunk number interleaves the two zigzag codes without their low
    four bits. *)
Lemma chunk_bits p n :
  in_range p -> 0 <= n ->
  Z.testbit (fst (fst (Point.indexes p))) n
  = (n <? 24)
    && if Z.even n
       then Z.testbit (zigzag_encode (Point.x p) / 16) (n / 2)
       else Z.testbit (zigzag_encode (Point.y p) / 16) (n / 2).
Proof.
  intros Hp Hn. rewrite indexes_split. cbv zeta. simpl fst.
  set (zx := zigzag_encode (Point.x p) / 16).
  set (zy := zigzag_encode (Point.y p) / 16).
  change 256 with (2 ^ 8).
  rewrite Z.div_pow2_bits by lia. rewrite testbit_to_uint32.
  destruct (Z.ltb_spec n 24) as [Hlt | Hge].
  2:{ destruct (Z.ltb_spec (n + 8) 32); [lia | reflexivity]. }
  destruct (Z.ltb_spec (n + 8) 32); [|lia]. simpl andb.
  unfold zx, zy. change 16 with (2 ^ 4).
  rewrite !Z.div_pow2_bits by (lia || (apply Z.div_pos; lia)).
  destruct (Z.even n) eqn:Hev.
  - apply Z.even_spec in Hev as [j ->].
    replace (2 * j + 8) with (2 * (j + 4)) by lia.
    rewrite index_bit_even by (assumption || lia).
    replace (2 * j / 2) with j by (rewrite Z.mul_comm, Z.div_mul; lia).
    reflexivity.
  - assert (Hodd : Z.odd n = true) by (rewrite <- Z.negb_even, Hev; reflexivity).
    apply Z.odd_spec in Hodd as [j ->].
    replace (2 * j + 1 + 8) with (2 * (j + 4) + 1) by lia.
    rewrite index_bit_odd by (assumption || lia).
    replace ((2 * j + 1) / 2) with j
      by (rewrite Z.mul_comm, Z.div_add_l by lia; change (1 / 2) with 0; lia).
    reflexivity.
Qed.

Lemma code_high_from_chunk p q :
  in_range p -> in_range q ->
  fst (fst (Point.indexes p)) = fst (fst (Point.indexes q)) ->
  zigzag_encode (Point.x p) / 16 = zigzag_encode (Point.x q) / 16 /\
  zigzag_encode (Point.y p) / 16 = zigzag_encode (Point.y q) / 16.
Proof.
  intros Hp Hq Heq.
  pose proof Hp as [Hpx Hpy]. pose proof Hq as [Hqx Hqy].
  destruct (zigzag_roundtrip (Point.x p) ltac:(lia)) as [Hapx _].
  destruct (zigzag_roundtrip (Point.y p) ltac:(lia)) as [Hapy _].
  destruct (zigzag_roundtrip (Point.x q) ltac:(lia)) as [Haqx _].
  destruct (zigzag_roundtrip (Point.y q) ltac:(lia)) as [Haqy _].
  assert (Hhigh : forall a m, 0 <= a < 2 ^ 16 -> 12 <= m ->
                    Z.testbit (a / 16) m = false).
  { intros a m Ha Hm. change 16 with (2 ^ 4).
    rewrite Z.div_pow2_bits by lia. apply testbit_high16; lia. }
  split; apply Z.bits_inj'; intros m Hm.
  - destruct (Z.lt_ge_cases m 12); [|by rewrite !Hhigh by (assumption || lia)].
    pose proof (chunk_bits p (2 * m) Hp ltac:(lia)) as Hbp.
    pose proof (chunk_bits q (2 * m) Hq ltac:(lia)) as Hbq.
    rewrite Heq, Hbq in Hbp.
    rewrite Z.even_mul in Hbp. simpl orb in Hbp. cbv iota in Hbp.
    replace (2 * m / 2) with m in Hbp by (rewrite Z.mul_comm, Z.div_mul; lia).
    destruct (Z.ltb_spec (2 * m) 24); [|lia]. simpl in Hbp. congruence.
  - destruct (Z.lt_ge_cases m 12); [|by rewrite !Hhigh by (assumption || lia)].
    pose proof (chunk_bits p (2 * m + 1) Hp ltac:(lia)) as Hbp.
    pose proof (chunk_bits q (2 * m + 1) Hq ltac:(lia)) as Hbq.
    rewrite Heq, Hbq in Hbp.
    replace (Z.even (2 * m + 1)) with false in Hbp
      by (rewrite Z.even_add, Z.even_mul; reflexivity).
    replace ((2 * m + 1) / 2) with m in Hbp
      by (rewrite Z.mul_comm, Z.div_add_l by lia; change (1 / 2) with 0; lia).
    destruct (Z.ltb_spec (2 * m + 1) 24); [|lia]. simpl in Hbp. congruence.
Qed.

Lemma chunk_from_code_high p q :
  in_range p -> in_range q ->
  zigzag_encode (Point.x p) / 16 = zigzag_encode (Point.x q) / 16 ->
  zigzag_encode (Point.y p) / 16 = zigzag_encode (Point.y q) / 16 ->
  fst (fst (Point.indexes p)) = fst (fst (Point.indexes q)).
Proof.
  intros Hp Hq Hx Hy. apply Z.bits_inj'. intros n Hn.
  rewrite !chunk_bits by assumption. by rewrite Hx, Hy.
Qed.

End ChunkOfPoint.

(** X8. Two points of the supported range lie in the same chunk exactly
    when the zigzag codes of their [x] coordinates agree up to the low
    four bits and so do those of their [y] coordinates; a chunk thus
    holds a 16 by 16 square of zigzag codes. *)
Theorem same_chunk_iff (p q : Point.t) :
  in_range p -> in_range q ->
  fst (fst (Point.indexes p)) = fst (fst (Point.indexes q)) <->
  zigzag_encode (Point.x p) / 16 = zigzag_encode (Point.x q) / 16 /\
  zigzag_encode (Point.y p) / 16 = zigzag_encode (Point.y q) / 16.
Proof.
  intros Hp Hq. split.
  - by apply code_high_from_chunk.
  - intros [Hx Hy]. by apply chunk_from_code_high.
Qed.

Lemma same_chunk_iff_witness :
  fst (fst (Point.indexes (Point.mk 7 (-8))))
  = fst (fst (Point.indexes (Point.mk (-1) 0))) <->
  zigzag_encode 7 / 16 = zigzag_encode (-1) / 16 /\
  zigzag_encode (-8) / 16 = zigzag_encode 0 / 16.
Proof.
  apply (same_chunk_iff (Point.mk 7 (-8)) (Point.mk (-1) 0));
    unfold in_range; simpl; lia.
Defined.

(** ** More on the sparse grid *)

Section GridMore.

Lemma slot_field_set_value w s st :
  0 <= s < 16 -> slot_field w s = 0 ->
  slot_field (JS.to_uint32 (JS.or w (JS.shl 1 (s * 2 + Stone_to_Z st)))) s
  = 1 + Stone_to_Z st.
Proof.
  intros Hs Hz. apply slot_field_zero in Hz as [H0 H1]; [|lia].
  rewrite slot_field_bits by lia. rewrite !set_word_bits by lia.
  rewrite H0, H1. simpl orb.
  destruct st; simpl Stone_to_Z.
  - destruct (Z.eqb_spec (s * 2) (s * 2 + 0)); [|lia].
    destruct (Z.eqb_spec (s * 2 + 1) (s * 2 + 0)); [lia|]. reflexivity.
  - destruct (Z.eqb_spec (s * 2) (s * 2 + 1)); [lia|].
    destruct (Z.eqb_spec (s * 2 + 1) (s * 2 + 1)); [|lia]. reflexivity.
Qed.

Lemma slot_field_new wi si : slot_field (Chunk.word_at Chunk.new wi) si = 0.
Proof.
  apply stone_of_field_none. rewrite <- chunk_get_field. apply chunk_get_new.
Qed.

(** The fields of a chunk after [Chunk.set] and [Chunk.unset]. *)
Lemma chunk_set_fields c wi si st wj sj :
  wf_chunk c -> 0 <= wi < 16 -> 0 <= si < 16 -> 0 <= sj < 16 ->
  slot_field (Chunk.word_at (fst (Chunk.set c wi si st)) wj) sj
  = if decide ((wj, sj) = (wi, si))
    then (if slot_field (Chunk.word_at c wi) si =? 0
          then 1 + Stone_to_Z st else slot_field (Chunk.word_at c wi) si)
    else slot_field (Chunk.word_at c wj) sj.
Proof.
  intros Hwf Hwi Hsi Hsj.
  destruct (Z.eqb_spec (slot_field (Chunk.word_at c wi) si) 0) as [Hz | Hnz].
  - rewrite chunk_set_empty
      by (rewrite chunk_get_field; by apply stone_of_field_none).
    simpl fst. destruct (decide ((wj, sj) = (wi, si))) as [Heq | Hne].
    + injection Heq as -> ->. rewrite word_at_store_same by assumption.
      by apply slot_field_set_value.
    + destruct (Z.eq_dec wi wj) as [-> | Hw].
      * rewrite word_at_store_same by assumption.
        apply slot_field_set_other; [lia | lia | congruence].
      * by rewrite word_at_store_other by assumption.
  - rewrite chunk_set_occupied
      by (rewrite chunk_get_field, stone_of_field_none; exact Hnz).
    simpl fst. destruct (decide ((wj, sj) = (wi, si))) as [Heq | Hne];
      [by injection Heq as -> -> | reflexivity].
Qed.

Lemma chunk_unset_fields c wi si wj sj :
  wf_chunk c -> 0 <= wi < 16 -> 0 <= si < 16 -> 0 <= sj < 16 ->
  slot_field (Chunk.word_at (fst (Chunk.unset c wi si)) wj) sj
  = if decide ((wj, sj) = (wi, si)) then 0
    else slot_field (Chunk.word_at c wj) sj.
Proof.
  intros Hwf Hwi Hsi Hsj. rewrite chunk_unset_eq. simpl fst.
  destruct (decide ((wj, sj) = (wi, si))) as [Heq | Hne].
  - injection Heq as -> ->. rewrite word_at_store_same by assumption.
    by apply slot_field_clear_same.
  - destruct (Z.eq_dec wi wj) as [-> | Hw].
    + rewrite word_at_store_same by assumption.
      apply slot_field_clear_other; [lia | lia | congruence].
    + by rewrite word_at_store_other by assumption.
Qed.

Lemma no_pattern3_new : no_pattern3 RawBoard.new.
Proof. intros i c wi si Hic. unfold RawBoard.new in Hic. by rewrite lookup_empty in Hic. Qed.

Lemma no_pattern3_set g p st :
  wf_grid g -> no_pattern3 g -> no_pattern3 (fst (RawBoard.set g p st)).
Proof.
  intros Hwf Hno. rewrite raw_set_eq.
  pose proof (indexes_valid p) as [Hw Hs].
  destruct (Point.indexes p) as [[ci wi] si]. cbv zeta. simpl in Hw, Hs.
  simpl fst. intros i c wj sj Hic Hwj Hsj.
  destruct (decide (ci = i)) as [<- | Hne].
  - rewrite lookup_insert_eq in Hic. injection Hic as <-.
    rewrite chunk_set_fields by (assumption || by apply wf_default).
    assert (Hold : forall w s, 0 <= w < 16 -> 0 <= s < 16 ->
              slot_field (Chunk.word_at (default Chunk.new (g !! ci)) w) s <> 3).
    { intros w s Hw' Hs'. destruct (g !! ci) as [c0|] eqn:Hc0; simpl.
      - by eapply Hno.
      - rewrite slot_field_new. lia. }
    destruct (decide ((wj, sj) = (wi, si))); [|by apply Hold].
    destruct (Z.eqb_spec
                (slot_field (Chunk.word_at (default Chunk.new (g !! ci)) wi) si) 0);
      [destruct st; simpl; lia | by apply Hold].
  - rewrite lookup_insert_ne in Hic by assumption. by eapply Hno.
Qed.

Lemma no_pattern3_unset g p :
  wf_grid g -> no_pattern3 g -> no_pattern3 (fst (RawBoard.unset g p)).
Proof.
  intros Hwf Hno. rewrite raw_unset_eq.
  pose proof (indexes_valid p) as [Hw Hs].
  destruct (Point.indexes p) as [[ci wi] si]. simpl in Hw, Hs.
  destruct (g !! ci) as [c0|] eqn:Hc0; cbn [fst]; [|exact Hno].
  intros i c wj sj Hic Hwj Hsj.
  destruct (decide (ci = i)) as [<- | Hne].
  - rewrite lookup_insert_eq in Hic.
    assert (Hc : fst (Chunk.unset c0 wi si) = c) by congruence.
    rewrite <- Hc.
    rewrite chunk_unset_fields by (assumption || by eapply Hwf).
    destruct (decide ((wj, sj) = (wi, si))); [lia | by eapply Hno].
  - rewrite lookup_insert_ne in Hic by assumption. by eapply Hno.
Qed.

Lemma storage_inv_perform_all cs : forall g,
  wf_grid g -> no_pattern3 g ->
  wf_grid (raw_perform_all cs g) /\ no_pattern3 (raw_perform_all cs g).
Proof.
  induction cs as [|c cs IH]; intros g Hwf Hno; simpl; [by split|].
  apply IH; destruct c; simpl;
    auto using no_pattern3_set, no_pattern3_unset with c6.
Qed.

End GridMore.



(** X10. Chunks are created on demand and never removed: after [set]
    the map holds the chunk of the point besides the chunks it held,
    also when the call returned false, and [unset] leaves the set of
    chunks as it was, also when it empties a chunk. *)
Theorem chunks_never_removed (g : RawBoard.t) (p : Point.t) (s : Stone) :
  dom (fst (RawBoard.set g p s)) = {[fst (fst (Point.indexes p))]} ∪ dom g /\
  dom (fst (RawBoard.unset g p)) = dom g.
Proof.
  rewrite raw_set_eq, raw_unset_eq.
  destruct (Point.indexes p) as [[ci wi] si]. cbv zeta. simpl fst. split.
  - apply dom_insert_L.
  - destruct (g !! ci) as [c|] eqn:Hc; simpl fst; [|reflexivity].
    rewrite dom_insert_L. apply subseteq_union_1_L.
    apply singleton_subseteq_l, elem_of_dom. eauto.
Qed.

(** X11. [set] never overwrites: it returns true exactly when [get]
    returned empty for the point before the call, for the grid and for
    the board alike. *)
Theorem set_succeeds_iff_empty (b : Board.t) (p : Point.t) (s : Stone) :
  (snd (RawBoard.set (Board.board b) p s) = true
   <-> RawBoard.get (Board.board b) p = None) /\
  (fst (Board.set b p s) = true <-> Board.get b p = None).
Proof.
  split.
  - rewrite raw_set_result, raw_get_cell.
    destruct (cell (Board.board b) (Point.indexes p)); split; congruence.
  - destruct (Board.get b p) as [old|] eqn:Hget.
    + rewrite board_set_taken by congruence. split; discriminate.
    + rewrite board_set_free by assumption. split; reflexivity.
Qed.

(** X12. Storage invariant: in every grid built from the empty one by
    [set] and [unset] calls, each chunk is an array of 16 words below
    2^32 and no slot holds the bit pattern 3, so a slot reads 0 (empty),
    1 (Black) or 2 (White). *)
Theorem storage_invariant (cs : list raw_call) :
  let g := raw_perform_all cs RawBoard.new in
  forall i c,
    g !! i = Some c ->
    List.length c = 16%nat /\
    Forall (fun w => 0 <= w < 2 ^ 32) c /\
    forall wi si, 0 <= wi < 16 -> 0 <= si < 16 ->
      slot_field (Chunk.word_at c wi) si = 0 \/
      slot_field (Chunk.word_at c wi) si = 1 \/
      slot_field (Chunk.word_at c wi) si = 2.
Proof.
  intros g i c Hic.
  destruct (storage_inv_perform_all cs RawBoard.new wf_grid_new no_pattern3_new)
    as [Hwf Hno]. fold g in Hwf, Hno.
  destruct (Hwf i c Hic) as [Hlen Hall].
  split; [exact Hlen|]. split; [exact Hall|].
  intros wi si Hwi Hsi.
  pose proof (Hno i c wi si Hic Hwi Hsi) as H3.
  pose proof (slot_field_range (Chunk.word_at c wi) si Hsi) as Hr. lia.
Qed.

Lemma storage_invariant_witness :
  let g := raw_perform_all [RawSet (Point.mk 0 0) White; RawUnset (Point.mk 0 0)]
             RawBoard.new in
  let c : list Z := default [] (g !! 0) in
  List.length c = 16%nat /\
  Forall (fun w => 0 <= w < 2 ^ 32) c /\
  forall wi si, 0 <= wi < 16 -> 0 <= si < 16 ->
    slot_field (Chunk.word_at c wi) si = 0 \/
    slot_field (Chunk.word_at c wi) si = 1 \/
    slot_field (Chunk.word_at c wi) si = 2.
Proof.
  intros g c.
  apply (storage_invariant
           [RawSet (Point.mk 0 0) White; RawUnset (Point.mk 0 0)] 0 c).
  vm_compute. reflexivity.
Defined.

(** ** More on the history-tracked board *)

Section BoardMore.

(** Two boards that satisfy the invariant and agree on record and
    cursor read the same at every point. *)
Lemma inv_same_view b b' :
  board_inv b -> board_inv b' ->
  Board.record b' = Board.record b -> Board._index b' = Board._index b ->
  forall p, Board.get b' p = Board.get b p.
Proof.
  intros (_ & _ & _ & Hc) (_ & _ & _ & Hc') Hrec Hidx p.
  unfold Board.get. rewrite !raw_get_cell.
  rewrite Hc, Hc' by apply indexes_valid. by rewrite Hrec, Hidx.
Qed.

Lemma inv_view b p :
  board_inv b ->
  Board.get b p
  = lookup_key (take (Z.to_nat (Board._index b)) (Board.record b))
      (Point.indexes p).
Proof.
  intros (_ & _ & _ & Hc). unfold Board.get. rewrite raw_get_cell.
  apply Hc, indexes_valid.
Qed.

Lemma replay_view l p :
  RawBoard.get (replay l) p = lookup_key l (Point.indexes p).
Proof. rewrite raw_get_cell. apply cell_replay, indexes_valid. Qed.


(** [from_record] keeps the invariant, ends with the cursor at the end
    of its record, and lets the first entry for a slot win. *)
Lemma from_record_inv l :
  board_inv (Board.from_record l) /\
  Board._index (Board.from_record l)
  = Board.length (Board.record (Board.from_record l)) /\
  forall k, valid_key k ->
    cell (Board.board (Board.from_record l)) k = lookup_key l k.
Proof.
  induction l as [|m l IH] using rev_ind.
  - split; [apply board_inv_new|]. split; [reflexivity|].
    intros k Hk. apply cell_new.
  - destruct IH as (Hinv & Hend & Hcells).
    unfold Board.from_record in *. rewrite fold_left_app. simpl.
    set (b := fold_left _ l Board.new) in *.
    replace (Point.mk (Point.x (fst m)) (Point.y (fst m))) with (fst m)
      by (destruct (fst m); reflexivity).
    split; [by apply board_inv_set|].
    pose proof Hinv as (Hwf & Hc & _).
    destruct (Board.get b (fst m)) as [old|] eqn:Hget.
    + rewrite board_set_taken by congruence. simpl snd.
      split; [exact Hend|]. intros k Hk.
      rewrite lookup_key_app, lookup_key_single, <- Hcells by assumption.
      destruct (cell (Board.board b) k) eqn:Hk'; [reflexivity|].
      destruct (decide (Point.indexes (fst m) = k)) as [<- | Hne];
        [|reflexivity].
      unfold Board.get in Hget. rewrite raw_get_cell in Hget. congruence.
    + rewrite board_set_free by assumption. simpl snd. split.
      * simpl. rewrite splice_in_range by exact Hc.
        unfold Board.length in *. rewrite length_app, length_take. simpl. lia.
      * intros k Hk. simpl.
        unfold Board.get in Hget. rewrite raw_get_cell in Hget.
        rewrite lookup_key_app, lookup_key_single, <- Hcells by assumption.
        destruct (decide (Point.indexes (fst m) = k)) as [<- | Hne].
        -- rewrite cell_set_same by assumption. by rewrite Hget.
        -- rewrite cell_set_other by (assumption || congruence).
           destruct (cell (Board.board b) k); reflexivity.
Qed.

Lemma from_record_nodup l :
  NoDup (keys l) -> Board.record (Board.from_record l) = l.
Proof.
  induction l as [|m l IH] using rev_ind; intros Hnd; [reflexivity|].
  rewrite keys_app in Hnd. apply NoDup_app in Hnd as (Hnd & Hdisj & _).
  specialize (IH Hnd).
  destruct (from_record_inv l) as (Hinv & Hend & Hcells).
  unfold Board.from_record in *. rewrite fold_left_app. simpl.
  set (b := fold_left _ l Board.new) in *.
  replace (Point.mk (Point.x (fst m)) (Point.y (fst m))) with (fst m)
    by (destruct (fst m); reflexivity).
  assert (Hfree : Board.get b (fst m) = None).
  { unfold Board.get. rewrite raw_get_cell, Hcells by apply indexes_valid.
    apply lookup_key_None. intros Hin. apply (Hdisj _ Hin).
    simpl. apply list_elem_of_singleton. reflexivity. }
  rewrite board_set_free by assumption. simpl.
  pose proof Hinv as (_ & Hc & _).
  rewrite splice_in_range by exact Hc. rewrite Hend, IH.
  unfold Board.length. rewrite Nat2Z.id, firstn_all.
  destruct m. reflexivity.
Qed.

End BoardMore.

(** X14. On a new board no sequence of [set], [unset], [reset] and
    [jump] calls throws as long as every jump index is non-negative. *)
Theorem calls_return (cs : list call) :
  Forall (fun c => match c with CallJump index => 0 <= index | _ => True end) cs ->
  exists b, perform_all cs Board.new = Ok tt b.
Proof. intros Hcs. by apply perform_all_returns; [apply board_inv_new|]. Qed.

Lemma calls_return_witness :
  exists b, perform_all sample_calls Board.new = Ok tt b.
Proof.
  apply calls_return. unfold sample_calls.
  repeat (apply Forall_cons; split; [simpl; try exact I; lia|]).
  apply Forall_nil. exact I.
Defined.



(** X16. Undo and redo are inverse steps: on a board reached from a
    new one by calls none of which threw, an [unset] that has an entry
    to undo followed by [reset], and a
    [reset] that has an entry to redo followed by [unset], both return
    the same entry twice and end with the record, the cursor and the
    stone at every point as they were. *)
Theorem undo_redo_roundtrip (cs : list call) (b : Board.t) :
  perform_all cs Board.new = Ok tt b ->
  (0 < Board._index b ->
   exists e b1 b2,
     Board.unset b = Ok (Some e) b1 /\ Board.reset b1 = Ok (Some e) b2 /\
     Board.record b2 = Board.record b /\ Board._index b2 = Board._index b /\
     forall p, Board.get b2 p = Board.get b p) /\
  (Board._index b < Board.total_count b ->
   exists e b1 b2,
     Board.reset b = Ok (Some e) b1 /\ Board.unset b1 = Ok (Some e) b2 /\
     Board.record b2 = Board.record b /\ Board._index b2 = Board._index b /\
     forall p, Board.get b2 p = Board.get b p).
Proof.
  intros Hrun.
  pose proof (board_inv_perform_all cs _ _ board_inv_new Hrun) as Hinv.
  pose proof Hinv as (_ & Hc & _). unfold cursor_ok in Hc.
  split.
  - intros Hpos.
    destruct (board_unset_step b) as (e & He & Hun); [lia|].
    set (b1 := Board.mk (fst (RawBoard.unset (Board.board b) (fst e)))
                 (Board.record b) (Board._index b - 1)) in *.
    destruct (board_reset_step b1) as (e' & He' & Hre); [simpl; lia|].
    simpl in He'. rewrite He in He'. injection He' as <-.
    pose proof (board_inv_unset _ _ _ Hinv Hun) as Hinv1.
    pose proof (board_inv_reset _ _ _ Hinv1 Hre) as Hinv2.
    eexists e, b1, _. split; [exact Hun|]. split; [exact Hre|].
    split; [reflexivity|]. split; [simpl; lia|].
    apply inv_same_view; [assumption | assumption | reflexivity | simpl; lia].
  - intros Hnext. unfold Board.total_count in Hnext.
    destruct (board_reset_step b) as (e & He & Hre); [lia|].
    set (b1 := Board.mk (fst (RawBoard.set (Board.board b) (fst e) (snd e)))
                 (Board.record b) (Board._index b + 1)) in *.
    destruct (board_unset_step b1) as (e' & He' & Hun); [simpl; lia|].
    simpl in He'.
    replace (Board._index b + 1 - 1) with (Board._index b) in He' by lia.
    rewrite He in He'. injection He' as <-.
    pose proof (board_inv_reset _ _ _ Hinv Hre) as Hinv1.
    pose proof (board_inv_unset _ _ _ Hinv1 Hun) as Hinv2.
    eexists e, b1, _. split; [exact Hre|]. split; [exact Hun|].
    split; [reflexivity|]. split; [simpl; lia|].
    apply inv_same_view; [assumption | assumption | reflexivity | simpl; lia].
Qed.

Lemma undo_redo_roundtrip_witness :
  let b := final_board (perform_all sample_calls Board.new) in
  exists e b1 b2,
    Board.unset b = Ok (Some e) b1 /\ Board.reset b1 = Ok (Some e) b2 /\
    Board.record b2 = Board.record b /\ Board._index b2 = Board._index b /\
    forall p, Board.get b2 p = Board.get b p.
Proof.
  intros b.
  apply (proj1 (undo_redo_roundtrip sample_calls b ltac:(vm_compute; reflexivity))).
  vm_compute. reflexivity.
Defined.

(** X17. A successful commit leaves nothing to redo: after [set]
    returned true on a board whose cursor lies within the record, the
    cursor equals [total_count], and [reset] returns null and changes
    nothing. *)
Theorem commit_clears_redo (b : Board.t) (p : Point.t) (s : Stone) (b' : Board.t) :
  cursor_ok b ->
  Board.set b p s = (true, b') ->
  Board.index b' = Board.total_count b' /\ Board.reset b' = Ok None b'.
Proof.
  intros Hc Hset. unfold cursor_ok in Hc.
  pose proof (board_set_true _ _ _ _ Hset) as Hfree.
  rewrite board_set_free in Hset by assumption. injection Hset as <-.
  assert (Hend : Board.index
            (Board.mk (fst (RawBoard.set (Board.board b) p s))
               (Board.splice (Board.record b) (Board._index b) ++ [(p, s)])
               (Board._index b + 1))
          = Board.total_count
              (Board.mk (fst (RawBoard.set (Board.board b) p s))
                 (Board.splice (Board.record b) (Board._index b) ++ [(p, s)])
                 (Board._index b + 1))).
  { unfold Board.index, Board.total_count. simpl.
    rewrite splice_in_range by exact Hc.
    unfold Board.length in *. rewrite length_app, length_take. simpl. lia. }
  split; [exact Hend|].
  apply reset_at_end. unfold Board.index, Board.total_count in Hend. lia.
Qed.

Lemma commit_clears_redo_witness :
  let b := final_board (perform_all sample_calls Board.new) in
  let b' := snd (Board.set b (Point.mk 9 9) Black) in
  Board.index b' = Board.total_count b' /\ Board.reset b' = Ok None b'.
Proof.
  intros b b'. apply (commit_clears_redo b (Point.mk 9 9) Black b').
  - unfold cursor_ok. vm_compute. split; discriminate.
  - vm_compute. reflexivity.
Defined.

(** X18. A jump shows exactly the entries before its target: on a board
    reached from a new one by calls none of which threw, [jump T] with
    [0 <= T <= total_count] returns,
    keeps the record, sets the cursor to [T], and leaves at every point
    the stone that replaying the first [T] record entries onto an empty
    grid gives; in particular [jump 0] leaves no stone on the grid. *)
Theorem jump_shows_prefix (cs : list call) (b : Board.t) (T : Z) :
  perform_all cs Board.new = Ok tt b ->
  0 <= T <= Board.total_count b ->
  exists b',
    Board.jump T b = Ok tt b' /\
    Board.record b' = Board.record b /\
    Board._index b' = T /\
    (forall p,
       Board.get b' p
       = RawBoard.get (replay (take (Z.to_nat T) (Board.record b))) p) /\
    (T = 0 -> Board.is_empty b' = true /\ forall p, Board.get b' p = None).
Proof.
  intros Hrun HT. unfold Board.total_count in HT.
  pose proof (board_inv_perform_all cs _ _ board_inv_new Hrun) as Hinv.
  pose proof Hinv as (_ & Hc & _).
  destruct (jump_is_walk b T Hc HT) as (b' & Hjump & _ & Hidx & Hrec).
  pose proof (board_inv_jump _ _ _ Hinv Hjump) as Hinv'.
  exists b'. split; [exact Hjump|]. split; [exact Hrec|]. split; [exact Hidx|].
  split.
  - intros p. rewrite inv_view by exact Hinv'. rewrite replay_view.
    by rewrite Hidx, Hrec.
  - intros ->. split; [unfold Board.is_empty; by rewrite Hidx|].
    intros p. rewrite inv_view by exact Hinv'. by rewrite Hidx.
Qed.

Lemma jump_shows_prefix_witness :
  let b := final_board (perform_all sample_calls Board.new) in
  exists b',
    Board.jump 2 b = Ok tt b' /\
    Board.record b' = Board.record b /\
    Board._index b' = 2 /\
    (forall p,
       Board.get b' p
       = RawBoard.get (replay (take (Z.to_nat 2) (Board.record b))) p) /\
    (2 = 0 -> Board.is_empty b' = true /\ forall p, Board.get b' p = None).
Proof.
  intros b. apply (jump_shows_prefix sample_calls b 2).
  - vm_compute. reflexivity.
  - vm_compute. split; discriminate.
Defined.

(** X19. Loading a record: [from_record] ends with the cursor at the end
    of its record; at every point the first entry of the input that
    addresses the point's slot decides the stone, later entries for an
    occupied slot being dropped; and an input without two entries for
    one slot becomes the record as it is. *)
Theorem from_record_loads (l : list Board.entry) :
  let b := Board.from_record l in
  Board.index b = Board.total_count b /\
  (forall p, Board.get b p = lookup_key l (Point.indexes p)) /\
  (forall p, Board.get b p = RawBoard.get (replay l) p) /\
  (NoDup (keys l) -> Board.record b = l).
Proof.
  intros b. destruct (from_record_inv l) as (Hinv & Hend & Hcells).
  fold b in Hinv, Hend, Hcells.
  assert (Hget : forall p, Board.get b p = lookup_key l (Point.indexes p)).
  { intros p. unfold Board.get. rewrite raw_get_cell.
    apply Hcells, indexes_valid. }
  split; [exact Hend|]. split; [exact Hget|]. split.
  - intros p. by rewrite Hget, replay_view.
  - apply from_record_nodup.
Qed.

Lemma from_record_loads_witness :
  let l := [(Point.mk 0 0, Black); (Point.mk 1 0, White);
            (Point.mk (-1) (-1), White)] in
  Board.record (Board.from_record l) = l.
Proof.
  intros l. apply (from_record_loads l).
  unfold l. vm_compute. repeat constructor; set_unfold; intuition congruence.
Defined.

(** X20. Saving and loading: for a board [b] reached from a new one by
    calls none of which threw, [from_record (past_record b)] has [past_record b] as its record, the
    cursor at its end, and the same stone as [b] at every point. *)
Theorem save_load_roundtrip (cs : list call) (b : Board.t) :
  perform_all cs Board.new = Ok tt b ->
  let b' := Board.from_record (Board.past_record b) in
  Board.record b' = Board.past_record b /\
  Board.past_record b' = Board.past_record b /\
  Board.index b' = Board.index b /\
  forall p, Board.get b' p = Board.get b p.
Proof.
  intros Hrun b'.
  pose proof (board_inv_perform_all cs _ _ board_inv_new Hrun) as Hinv.
  pose proof Hinv as (_ & Hc & Hnd & _).
  destruct (from_record_inv (Board.past_record b)) as (Hinv' & Hend & Hcells).
  fold b' in Hinv', Hend, Hcells.
  assert (Hrec : Board.record b' = Board.past_record b).
  { apply from_record_nodup. rewrite past_record_in_range by exact Hc.
    by apply NoDup_keys_take. }
  assert (Hlen : Board.length (Board.past_record b) = Board._index b).
  { rewrite past_record_in_range by exact Hc. unfold cursor_ok in Hc.
    unfold Board.length in *. rewrite length_take. lia. }
  assert (Hidx : Board._index b' = Board._index b) by (rewrite Hend, Hrec; exact Hlen).
  split; [exact Hrec|]. split; [|split; [exact Hidx|]].
  - pose proof Hinv' as (_ & Hc' & _).
    rewrite past_record_in_range by exact Hc'.
    rewrite Hidx, Hrec, <- Hlen. unfold Board.length.
    rewrite Nat2Z.id. apply firstn_all.
  - intros p. unfold Board.get at 1. rewrite raw_get_cell.
    rewrite Hcells by apply indexes_valid.
    rewrite inv_view by exact Hinv.
    by rewrite past_record_in_range by exact Hc.
Qed.

Lemma save_load_roundtrip_witness :
  let b := final_board (perform_all sample_calls Board.new) in
  let b' := Board.from_record (Board.past_record b) in
  Board.record b' = Board.past_record b /\
  Board.past_record b' = Board.past_record b /\
  Board.index b' = Board.index b /\
  forall p, Board.get b' p = Board.get b p.
Proof.
  intros b. apply (save_load_roundtrip sample_calls b).
  vm_compute. reflexivity.
Defined.

(** X21. [infer_turn] follows the order of Connect6: on a board whose
    last two entries before the cursor (the last one, when the cursor is
    1) carry the stones of that order - Black for move 0, then White,
    White, Black, Black, and so on - it returns the stone of the order
    for the next move, and its flag is true exactly when the cursor is
    even. *)
Theorem infer_turn_connect6 (b : Board.t) :
  cursor_ok b ->
  (forall k e,
     Board._index b - 2 <= k < Board._index b ->
     Board.entry_at (Board.record b) k = Some e ->
     snd e = connect6_stone k) ->
  Board.infer_turn b
  = Ok (Stone_to_Z (connect6_stone (Board._index b)), Z.even (Board._index b)) b.
Proof.
  intros Hc Horder. unfold cursor_ok in Hc. unfold Board.infer_turn.
  destruct (Z.eqb_spec (Board._index b) 0) as [H0 | Hpos].
  { rewrite H0. reflexivity. }
  destruct (entry_at_Some (Board.record b) (Board._index b - 1))
    as [last Hlast]; [lia|].
  rewrite Hlast.
  pose proof (Horder (Board._index b - 1) last) as Hl.
  specialize (Hl ltac:(lia) Hlast).
  destruct (Z.eqb_spec (Board._index b) 1) as [H1 | Hgt].
  { rewrite H1 in *. rewrite Hl. reflexivity. }
  destruct (entry_at_Some (Board.record b) (Board._index b - 2))
    as [prev Hprev]; [lia|].
  rewrite Hprev.
  pose proof (Horder (Board._index b - 2) prev) as Hp.
  specialize (Hp ltac:(lia) Hprev).
  rewrite Hl, Hp. clear Hlast Hprev Hl Hp Horder.
  set (c := Board._index b) in *.
  pose proof (Z.div_mod c 4 ltac:(lia)) as Hdm.
  pose proof (Z.mod_pos_bound c 4 ltac:(lia)) as Hm.
  assert (Hcase : c mod 4 = 0 \/ c mod 4 = 1 \/ c mod 4 = 2 \/ c mod 4 = 3) by lia.
  assert (Hev : Z.even c = Z.even (c mod 4)).
  { rewrite Hdm at 1. rewrite Z.add_comm.
    replace (4 * (c / 4)) with (2 * (2 * (c / 4))) by lia.
    apply Z.even_add_mul_2. }
  assert (Hm1 : (c - 1) mod 4 = (c mod 4 + 3) mod 4).
  { replace (c - 1) with (c + 3 + (-1) * 4) by lia.
    rewrite Z.mod_add by lia. rewrite Zplus_mod. reflexivity. }
  assert (Hm2 : (c - 2) mod 4 = (c mod 4 + 2) mod 4).
  { replace (c - 2) with (c + 2 + (-1) * 4) by lia.
    rewrite Z.mod_add by lia. rewrite Zplus_mod. reflexivity. }
  unfold connect6_stone. rewrite Hev, Hm1, Hm2.
  destruct (Z.eqb_spec c 0); [lia|].
  destruct (Z.eqb_spec (c - 1) 0); [lia|].
  destruct (Z.eqb_spec (c - 2) 0) as [Hc2 | Hc2].
  - assert (Hmod : c mod 4 = 2) by (replace c with 2 by lia; reflexivity).
    rewrite Hmod. reflexivity.
  - destruct Hcase as [-> | [-> | [-> | ->]]]; reflexivity.
Qed.

Lemma infer_turn_connect6_witness :
  let b := Board.from_record
             [(Point.mk 0 0, Black); (Point.mk 1 0, White);
              (Point.mk 1 1, White); (Point.mk 2 0, Black)] in
  Board.infer_turn b
  = Ok (Stone_to_Z (connect6_stone (Board._index b)), Z.even (Board._index b)) b.
Proof.
  intros b. apply (infer_turn_connect6 b).
  - unfold cursor_ok. vm_compute. split; discriminate.
  - intros k e Hk He.
    assert (Hi : Board._index b = 4) by (vm_compute; reflexivity).
    rewrite Hi in Hk.
    assert (Hk' : k = 2 \/ k = 3) by lia.
    destruct Hk' as [-> | ->]; vm_compute in He; injection He as <-;
      reflexivity.
Defined.





(** X24. The record holds no two entries for one slot as long as no
    call throws: on every board reached from a new one by calls none of
    which threw, the entries at two different positions of
    the record address different index triples, so a point of the
    supported range is recorded at most once. *)
Theorem record_slots_unique (cs : list call) (b : Board.t) (i j : Z)
    (e1 e2 : Board.entry) :
  perform_all cs Board.new = Ok tt b ->
  Board.entry_at (Board.record b) i = Some e1 ->
  Board.entry_at (Board.record b) j = Some e2 ->
  i <> j ->
  Point.indexes (fst e1) <> Point.indexes (fst e2) /\ fst e1 <> fst e2.
Proof.
  intros Hrun H1 H2 Hij.
  pose proof (board_inv_perform_all cs _ _ board_inv_new Hrun) as (_ & _ & Hnd & _).
  apply entry_at_lookup in H1 as [Hi H1]. apply entry_at_lookup in H2 as [Hj H2].
  assert (Hkeys : forall (l : list Board.entry) n e,
            l !! n = Some e -> keys l !! n = Some (Point.indexes (fst e))).
  { induction l as [|e' l IH]; intros [|n] e He; try discriminate.
    - by injection He as ->.
    - simpl. by apply IH. }
  pose proof (Hkeys _ _ _ H1) as Hk1. pose proof (Hkeys _ _ _ H2) as Hk2.
  assert (Hne : Point.indexes (fst e1) <> Point.indexes (fst e2)).
  { intros Heq. rewrite Heq in Hk1.
    pose proof (NoDup_lookup _ _ _ _ Hnd Hk1 Hk2). lia. }
  split; [exact Hne | congruence].
Qed.

Lemma record_slots_unique_witness :
  Point.indexes (Point.mk 0 0) <> Point.indexes (Point.mk (-3) 4) /\
  Point.mk 0 0 <> Point.mk (-3) 4.
Proof.
  apply (record_slots_unique sample_calls
           (final_board (perform_all sample_calls Board.new)) 0 1
           (Point.mk 0 0, Black) (Point.mk (-3) 4, White));
    try (vm_compute; reflexivity). lia.
Defined.

(** ** Decoding every index *)

Section Decode.

Lemma forall_even_bits_spec k f acc :
  forall_even_bits k f acc = true ->
  forall v, even_only k v -> f (acc * 4 ^ Z.of_nat k + v) = true.
Proof.
  revert acc. induction k as [|k IH]; intros acc Hall v [Hv Hodd].
  - simpl in Hall. change (4 ^ Z.of_nat 0) with 1 in *.
    replace (acc * 1 + v) with acc by lia. exact Hall.
  - simpl forall_even_bits in Hall. apply andb_true_iff in Hall as [Hl Hr].
    rewrite Nat2Z.inj_succ, Z.pow_succ_r in * by lia.
    set (m := 4 ^ Z.of_nat k) in *.
    assert (Hm : 0 < m) by (apply Z.pow_pos_nonneg; lia).
    assert (Hm2 : m = 2 ^ (2 * Z.of_nat k)).
    { unfold m. rewrite Z.pow_mul_r by lia. reflexivity. }
    pose proof (Z.div_mod v m ltac:(lia)) as Hdm.
    pose proof (Z.mod_pos_bound v m Hm) as Hlo.
    assert (Hhi : 0 <= v / m < 4).
    { split; [apply Z.div_pos; lia | apply Z.div_lt_upper_bound; lia]. }
    assert (Hbit1 : Z.testbit (v / m) 1 = false).
    { rewrite Hm2, Z.div_pow2_bits by lia. apply Hodd; [lia|].
      rewrite Z.odd_add_mul_2. reflexivity. }
    assert (Hhi01 : v / m = 0 \/ v / m = 1).
    { pose proof (land3_bits (v / m)) as H3. rewrite Hbit1 in H3.
      change 3 with (Z.ones 2) in H3. rewrite Z.land_ones in H3 by lia.
      rewrite Z.mod_small in H3 by (change (2 ^ 2) with 4; lia).
      destruct (Z.testbit (v / m) 0); simpl in H3; lia. }
    assert (Hlow : even_only k (v mod m)).
    { split; [exact Hlo|]. intros n Hn Hno. rewrite Hm2.
      rewrite Z.testbit_mod_pow2 by lia. rewrite (Hodd n Hn Hno).
      apply andb_false_r. }
    destruct Hhi01 as [H0 | H1].
    + replace (acc * (4 * m) + v) with (4 * acc * m + v mod m) by lia.
      by apply IH.
    + replace (acc * (4 * m) + v) with ((4 * acc + 1) * m + v mod m) by lia.
      by apply IH.
Qed.

Lemma unspread_all : forall_even_bits 16 unspread16 0 = true.
Proof. vm_compute. reflexivity. Qed.

Lemma hi_clear_bound v : 0 <= v -> hi_clear v -> v < 2 ^ 32.
Proof.
  intros Hv Hhi.
  assert (Hmod : v mod 2 ^ 32 = v).
  { apply Z.bits_inj'. intros n Hn. rewrite Z.testbit_mod_pow2 by lia.
    destruct (Z.ltb_spec n 32); [reflexivity | symmetry; by apply Hhi]. }
  pose proof (Z.mod_pos_bound v (2 ^ 32) ltac:(lia)). lia.
Qed.

(** Masking with [0x55555555] leaves bits at even positions only. *)
Lemma even_only_mask5 a : even_only 16 (JS.and a 0x55555555).
Proof.
  assert (Hodd : forall n, 0 <= n -> Z.odd n = true ->
            Z.testbit (JS.and a 0x55555555) n = false).
  { intros n Hn Ho. rewrite and_mask5_bits by lia.
    rewrite <- Z.negb_odd, Ho. simpl. by rewrite andb_false_r. }
  split; [|exact Hodd].
  assert (Hnn : 0 <= JS.and a 0x55555555).
  { unfold JS.and. apply Z.land_nonneg. right.
    rewrite to_int32_small; lia. }
  split; [exact Hnn|]. change (4 ^ Z.of_nat 16) with (2 ^ 32).
  apply hi_clear_bound; [exact Hnn | apply hi_clear_and; lia].
Qed.

(** [scatter] undoes [gather] on the values that [gather] works on. *)
Lemma scatter_gather_tail v :
  even_only 16 v -> scatter (gather_tail v) = v.
Proof.
  intros Hv. pose proof Hv as [Hr _].
  change (4 ^ Z.of_nat 16) with (2 ^ 32) in Hr.
  rewrite scatter_is_raw, gather_tail_is_raw
    by (intros n Hn; apply testbit_uint32_high; lia).
  apply Z.eqb_eq.
  apply (forall_even_bits_spec 16 unspread16 0 unspread_all v Hv).
Qed.

Lemma low16_range y : 0 <= JS.and y 0x0000ffff < 2 ^ 16.
Proof.
  unfold JS.and. rewrite (to_int32_small 0x0000ffff) by lia.
  change 0x0000ffff with (Z.ones 16). rewrite Z.land_ones by lia.
  apply Z.mod_pos_bound. lia.
Qed.

Lemma gather_range i : 0 <= gather i < 2 ^ 16.
Proof. unfold gather. cbv zeta. apply low16_range. Qed.

Lemma zigzag_decode_in_range z :
  0 <= z < 2 ^ 16 -> -32768 <= zigzag_decode z <= 32767.
Proof.
  intros Hz. rewrite zigzag_decode_small by lia.
  pose proof (Z.div_mod z 2 ltac:(lia)) as Hdm.
  pose proof (Z.mod_pos_bound z 2 ltac:(lia)) as Hm.
  destruct (Z.even z); lia.
Qed.

Lemma from_index_in_range i : in_range (Point.from_index i).
Proof.
  unfold Point.from_index, deinterleave, in_range. simpl.
  split; apply zigzag_decode_in_range, gather_range.
Qed.

Lemma index_from_index i :
  JS.to_uint32 (Point.index (Point.from_index i)) = JS.to_uint32 i.
Proof.
  unfold Point.from_index, deinterleave, Point.index. simpl Point.x. simpl Point.y.
  cbv zeta.
  rewrite !zigzag_encode_decode_u32.
  rewrite (to_uint32_small (gather i))
    by (pose proof (gather_range i); lia).
  rewrite (to_uint32_small (gather (JS.shr i 1)))
    by (pose proof (gather_range (JS.shr i 1)); lia).
  unfold interleave. rewrite !gather_unfold.
  rewrite !scatter_gather_tail by apply even_only_mask5.
  apply uint32_ext; try apply to_uint32_range.
  intros n Hn. rewrite !testbit_to_uint32.
  destruct (Z.ltb_spec n 32); [|lia]. simpl andb.
  rewrite testbit_or, testbit_shl by lia.
  rewrite and_mask5_bits by lia.
  destruct (Z.ltb_spec n 32); [|lia]. simpl andb.
  destruct (Z.leb_spec 1 n) as [Hpos | Hzero].
  - rewrite and_mask5_bits, testbit_shr by lia.
    destruct (Z.ltb_spec (n - 1) 32); [|lia].
    replace (n - 1 + 1) with n by lia.
    destruct (Z.ltb_spec n 32); [|lia]. simpl andb.
    rewrite Z.even_sub. change (Z.even 1) with false.
    destruct (Z.even n); simpl; [apply orb_false_r | reflexivity].
  - assert (n = 0) by lia. subst n. simpl. apply orb_false_r.
Qed.

End Decode.

(** X25. Every index decodes to a point of the supported range, and
    encoding that point gives the index back as a 32-bit integer; with
    C1, [Point.index] and [Point.from_index] are inverse bijections
    between the points with coordinates in [-32768, 32767] and the
    32-bit indices. *)
Theorem from_index_inverse (i : Z) :
  in_range (Point.from_index i) /\
  JS.to_uint32 (Point.index (Point.from_index i)) = JS.to_uint32 i.
Proof.
  split; [apply from_index_in_range | apply index_from_index].
Qed.

(** ** Every point shares its index with a point of the supported range *)

Section Alias.

(** A 32-bit signed integer repeats its sign bit above position 31. *)
Lemma int32_sign_bits v n :
  - 2 ^ 31 <= v < 2 ^ 31 -> 31 <= n -> Z.testbit v n = Z.testbit v 31.
Proof.
  intros Hv Hn. destruct (Z.le_gt_cases 0 v) as [Hpos | Hneg].
  - rewrite <- (Z.mod_small v (2 ^ 31)) by lia.
    rewrite !Z.mod_pow2_bits_high by lia. reflexivity.
  - assert (Hbit : forall k, 31 <= k -> Z.testbit v k = true).
    { intros k Hk. rewrite <- (Z.lnot_involutive v), Z.lnot_spec by lia.
      assert (Hl : 0 <= Z.lnot v < 2 ^ 31) by (unfold Z.lnot; lia).
      rewrite <- (Z.mod_small (Z.lnot v) (2 ^ 31)) by exact Hl.
      rewrite Z.mod_pow2_bits_high by lia. reflexivity. }
    rewrite !Hbit by lia. reflexivity.
Qed.

(** [a | b] is a 32-bit signed integer. *)
Lemma or_int32 a b : JS.to_int32 (JS.or a b) = JS.or a b.
Proof.
  unfold JS.or. apply Z.bits_inj'. intros n Hn.
  destruct (Z.lt_ge_cases n 32) as [Hlo | Hhi].
  - apply testbit_to_int32. lia.
  - rewrite (int32_sign_bits (JS.to_int32 _) n) by (apply to_int32_range || lia).
    rewrite testbit_to_int32 by lia.
    rewrite !Z.lor_spec.
    rewrite (int32_sign_bits (JS.to_int32 a) n) by (apply to_int32_range || lia).
    rewrite (int32_sign_bits (JS.to_int32 b) n) by (apply to_int32_range || lia).
    reflexivity.
Qed.

Lemma index_int32 p : JS.to_int32 (Point.index p) = Point.index p.
Proof. unfold Point.index, interleave. cbv zeta. apply or_int32. Qed.

(** Decoding the index of any point and encoding again gives the index
    back. *)
Lemma index_from_index_of_point p :
  Point.index (Point.from_index (Point.index p)) = Point.index p.
Proof.
  rewrite <- (index_int32 (Point.from_index (Point.index p))).
  rewrite <- to_int32_uint32, index_from_index, to_int32_uint32.
  apply index_int32.
Qed.

End Alias.

(** C10, amended. [scatter] never masks its operand to 16 bits, so
    [Point.index] depends on the low 24 bits of each coordinate's zigzag
    code: two points whose zigzag-encoded x values agree modulo 2^24 and
    whose zigzag-encoded y values agree modulo 2^24 have the same index.
    Coordinates outside [-32768, 32767] are not rejected but alias points
    inside it: every point [p] has the index, and so the index triple,
    of the point [from_index (index p)], which lies in the supported
    range and hence differs from [p] when [p] lies outside. *)
Theorem index_low24 (p q : Point.t) :
  (zigzag_encode (Point.x p) mod 2 ^ 24 = zigzag_encode (Point.x q) mod 2 ^ 24 ->
   zigzag_encode (Point.y p) mod 2 ^ 24 = zigzag_encode (Point.y q) mod 2 ^ 24 ->
   Point.index p = Point.index q) /\
  (let r := Point.from_index (Point.index p) in
   in_range r /\
   Point.index r = Point.index p /\
   Point.indexes r = Point.indexes p /\
   (~ in_range p -> r <> p)).
Proof.
  split.
  - intros Hx Hy. unfold Point.index, interleave. cbv zeta.
    rewrite (scatter_low24 _ _ Hx), (scatter_low24 _ _ Hy). reflexivity.
  - intros r.
    assert (Hr : in_range r) by apply from_index_in_range.
    assert (Hidx : Point.index r = Point.index p)
      by apply index_from_index_of_point.
    split; [exact Hr|]. split; [exact Hidx|]. split.
    + unfold Point.indexes. rewrite Hidx. reflexivity.
    + intros Hout Heq. apply Hout. rewrite <- Heq. exact Hr.
Qed.

Lemma index_low24_witness :
  Point.index (Point.mk 8388608 0) = Point.index (Point.mk 0 0) /\
  Point.from_index (Point.index (Point.mk 65536 (-40000))) <> Point.mk 65536 (-40000).
Proof.
  split.
  - apply (index_low24 (Point.mk 8388608 0) (Point.mk 0 0)); vm_compute; reflexivity.
  - apply (index_low24 (Point.mk 65536 (-40000)) (Point.mk 0 0)).
    unfold in_range. simpl. lia.
Defined.
